(** * Computers.jsx: the geometry cleaning pass and the component tree

    A shallow embedding of [src/components/canvas/Computers.jsx]:
    - JavaScript numbers are IEEE 754 binary64 values ([spec_float]);
    - a typed array is a list updated by index;
    - geometries live in a store addressed by reference, because
      [Object3D.clone] shares geometries between a scene and its clone and
      several meshes may point to one geometry; [Shared] does the same for
      attribute objects and arrays;
    - the loop over the position array is defined by well-founded recursion
      on the distance between the index and [array.length];
    - React components are functions from props and hook state to the
      outcome of a render: an element, a suspension or an error. *)

From Stdlib Require Import QArith.
From Stdlib Require Import Floats.SpecFloat.
From stdpp Require Import gmap strings list fin_maps.
From Equations Require Import Equations.

(** ** JavaScript numbers *)

Module JsNumber.

(** A JS number is a binary64 float. *)
Definition number := spec_float.

Definition prec : Z := 53.
Definition emax : Z := 1024.

(** The literal [0]. *)
Definition zero : number := S754_zero false.

(** An integer literal, rounded as binary64 arithmetic does. *)
Definition ofZ (z : Z) : number := binary_normalize prec emax z 0 false.

(** Global [isNaN] on a number. *)
Definition isNaN (x : number) : bool :=
  match x with
  | S754_nan => true
  | _ => false
  end.

(** Global [isFinite] on a number. *)
Definition isFinite (x : number) : bool :=
  match x with
  | S754_zero _ | S754_finite _ _ _ => true
  | S754_infinity _ | S754_nan => false
  end.

(** [x === y] on numbers: IEEE equality, so [NaN] differs from itself and
    the two zeros are equal. *)
Definition strictEq (x y : number) : bool := SFeqb x y.

End JsNumber.
Import JsNumber.

(** ** Typed arrays and the scan of lines 24-32 *)

(** What an execution does, in order: console output, property writes, the
    call into the library, and (as ghost events) the array accesses:
    [Inspect i] for every evaluation of [array[i]], [Store i] for
    [array[i] = 0]. *)
Inductive Event :=
| Inspect (i : nat)
| Store (i : nat)
| ConsoleLog (msg : string)
| ConsoleWarn (msg : string)
| SetNeedsUpdate
| CallComputeBoundingSphere
| AssignBoundingSphere.

#[global] Instance Event_eq_dec : EqDecision Event.
Proof. solve_decision. Defined.

(** The variables of the loop: [array], [needsFix], and the trace. *)
Record ScanState := mkScanState {
  arr : list number;
  needsFix : bool;
  trace : list Event
}.

(** The test of line 28 on a number: [isNaN(x) || !isFinite(x)]. *)
Definition isBad (x : number) : bool := isNaN x || negb (isFinite x).

(** The same test on [array[i]].  Reading past the end of a typed array
    yields [undefined], which [isNaN] accepts. *)
Definition isBadAt (a : list number) (i : nat) : bool :=
  match a !! i with
  | Some x => isBad x
  | None => true
  end.

(** The evaluations of [array[i]] in line 28 for an element [x]:
    [isNaN(array[i])] reads it, and [||] goes on to [!isFinite(array[i])],
    which reads it again, only when the first test fails. *)
Definition readsOf (i : nat) (x : number) : list Event :=
  if isNaN x then [Inspect i] else [Inspect i; Inspect i].

(** The same for [array[i]]; past the end the first test already holds. *)
Definition readsAt (a : list number) (i : nat) : list Event :=
  match a !! i with
  | Some x => readsOf i x
  | None => [Inspect i]
  end.

(** One iteration of the loop body (lines 28-31).  A typed array ignores a
    write past its end, as stdpp's insert does. *)
Definition scanBody (i : nat) (st : ScanState) : ScanState :=
  if isBadAt (arr st) i
  then {| arr := <[i := zero]> (arr st);
          needsFix := true;
          trace := trace st ++ readsAt (arr st) i ++ [Store i] |}
  else {| arr := arr st;
          needsFix := needsFix st;
          trace := trace st ++ readsAt (arr st) i |}.

(** One turn of the [for] statement on the pair of [i] and the loop state:
    the test [i < array.length], then the body and [i++]; [None] when the
    test fails and the loop is left. *)
Definition scanStep (s : nat * ScanState) : option (nat * ScanState) :=
  if decide (s.1 < length (arr s.2))
  then Some (S s.1, scanBody s.1 s.2)
  else None.

(** [k] turns in a row; [None] if the loop is left before. *)
Fixpoint scanSteps (k : nat) (s : nat * ScanState) : option (nat * ScanState) :=
  match k with
  | 0 => Some s
  | S k' =>
      match scanStep s with
      | Some s' => scanSteps k' s'
      | None => None
      end
  end.

(** [for (let i = ...; i < array.length; i++) { body }], started at index
    [i]: the test is evaluated before every iteration. *)
Equations? scanFrom (i : nat) (st : ScanState) : ScanState
  by wf (length (arr st) - i) lt :=
scanFrom i st with decide (i < length (arr st)) := {
  | left _ => scanFrom (S i) (scanBody i st)
  | right _ => st }.
Proof.
  unfold scanBody. destruct (isBadAt (arr st) i); simpl;
    rewrite ?length_insert; lia.
Qed.

(** Lines 23-32: [const array = position.array; let needsFix = false; for ...]. *)
Definition scanArray (a : list number) : ScanState :=
  scanFrom 0 {| arr := a; needsFix := false; trace := [] |}.

(** What the loop leaves in a slot that held [x]. *)
Definition cleaned (x : number) : number := if isBad x then zero else x.

(** The events of the iteration at index [i] on an element [x]. *)
Definition elementEvents (i : nat) (x : number) : list Event :=
  readsOf i x ++ (if isBad x then [Store i] else []).

(** The events of the iterations from index [i] on, over the elements [l]
    still to be visited. *)
Fixpoint scanEvents (i : nat) (l : list number) : list Event :=
  match l with
  | [] => []
  | x :: l' => elementEvents i x ++ scanEvents (S i) l'
  end.

(** The indices of the [Inspect] events of a trace, in order. *)
Definition inspected (t : list Event) : list nat :=
  omap (fun e => match e with Inspect i => Some i | _ => None end) t.

(** How often an event occurs in a trace. *)
Definition occurrences (e : Event) (t : list Event) : nat :=
  length (filter (fun e' => e' = e) t).

(** ** Geometries (the parts of three.js objects the source reads or writes)

    A [BufferGeometry] is what the callback sees of one geometry: every
    attribute with the contents of its array.  Which arrays and attribute
    objects are shared between attributes and geometries is kept in
    [Shared] below. *)

Record Vector3 := mkVector3 { vx : number; vy : number; vz : number }.

Record Sphere := mkSphere { center : Vector3; radius : number }.

Record BufferAttribute := mkBufferAttribute {
  array : list number;
  itemSize : nat;
  needsUpdate : bool
}.

Record BufferGeometry := mkBufferGeometry {
  attributes : gmap string BufferAttribute;
  index : option BufferAttribute;
  boundingSphere : option Sphere
}.

Definition setArray (p : BufferAttribute) (a : list number) : BufferAttribute :=
  {| array := a; itemSize := itemSize p; needsUpdate := needsUpdate p |}.

Definition setNeedsUpdate (p : BufferAttribute) (b : bool) : BufferAttribute :=
  {| array := array p; itemSize := itemSize p; needsUpdate := b |}.

Definition setAttribute (g : BufferGeometry) (k : string) (p : BufferAttribute)
  : BufferGeometry :=
  {| attributes := <[k := p]> (attributes g);
     index := index g;
     boundingSphere := boundingSphere g |}.

Definition setBoundingSphere (g : BufferGeometry) (bs : option Sphere)
  : BufferGeometry :=
  {| attributes := attributes g; index := index g; boundingSphere := bs |}.

(** [new THREE.Sphere(new THREE.Vector3(0, 0, 0), 5)]. *)
Definition defaultSphere : Sphere :=
  mkSphere (mkVector3 zero zero zero) (ofZ 5).

(** The condition of lines 53-57:
    [!geometry.boundingSphere || isNaN(radius) || radius === 0]. *)
Definition sphereInvalid (bs : option Sphere) : bool :=
  match bs with
  | None => true
  | Some s => isNaN (radius s) || strictEq (radius s) zero
  end.

(** How a call completes; in both cases [a] is what the callee left behind. *)
Inductive Completion (A : Type) :=
| Returned (a : A)
| Thrown (a : A).
Arguments Returned {A} a.
Arguments Thrown {A} a.

(** The sphere the pass leaves, from the completion of the library call. *)
Definition finalSphere (c : Completion (option Sphere)) : Sphere :=
  match c with
  | Thrown _ => defaultSphere
  | Returned None => defaultSphere
  | Returned (Some s) =>
      if isNaN (radius s) || strictEq (radius s) zero
      then defaultSphere else s
  end.

Definition msgFixed : string := "Fixed NaN values in geometry".
Definition msgFailed : string :=
  "Failed to compute bounding sphere, setting manually".

Section CleaningPass.

(** [BufferGeometry.computeBoundingSphere] belongs to three.js.  It reads
    the geometry and writes [this.boundingSphere] only; the parameter gives,
    for a geometry, how the call completes and the value it leaves in
    [boundingSphere]. *)
Variable computeBoundingSphere : BufferGeometry -> Completion (option Sphere).

(** Lines 23-37: the scan, then the [needsFix] branch. *)
Definition fixPosition (position : BufferAttribute)
  : BufferAttribute * list Event :=
  let st := scanArray (array position) in
  let position' := setArray position (arr st) in
  if needsFix st
  then (setNeedsUpdate position' true,
        trace st ++ [ConsoleLog msgFixed; SetNeedsUpdate])
  else (position', trace st).

(** Lines 40-50: the guarded library call. *)
Definition tryComputeBoundingSphere (g : BufferGeometry)
  : BufferGeometry * list Event :=
  match computeBoundingSphere g with
  | Returned bs =>
      (setBoundingSphere g bs, [CallComputeBoundingSphere])
  | Thrown _ =>
      (setBoundingSphere g (Some defaultSphere),
       [CallComputeBoundingSphere; ConsoleWarn msgFailed; AssignBoundingSphere])
  end.

(** Lines 52-62: the check after the call. *)
Definition forceBoundingSphere (g : BufferGeometry)
  : BufferGeometry * list Event :=
  if sphereInvalid (boundingSphere g)
  then (setBoundingSphere g (Some defaultSphere), [AssignBoundingSphere])
  else (g, []).

(** Lines 19-63: the work done for one geometry. *)
Definition cleanGeometry (g : BufferGeometry) : BufferGeometry * list Event :=
  match attributes g !! "position" with
  | None => (g, [])
  | Some position =>
      let '(position', t1) := fixPosition position in
      let g1 := setAttribute g "position" position' in
      let '(g2, t2) := tryComputeBoundingSphere g1 in
      let '(g3, t3) := forceBoundingSphere g2 in
      (g3, t1 ++ t2 ++ t3)
  end.

End CleaningPass.

(** ** The scene graph and the store of shared objects *)

(** References to geometries and materials: [Mesh.copy] and [Object3D.clone]
    copy the reference, not the object. *)
Definition GeometryRef := positive.
Definition MaterialRef := positive.

Record Material := mkMaterial {
  materialName : string;
  materialColor : string
}.

(** A node of the scene graph with the properties the source reads. *)
#[warnings="-register-all"]
Inductive Object3D := mkObject3D {
  objectName : string;
  isMesh : bool;
  geometry : option GeometryRef;
  material : option MaterialRef;
  children : list Object3D
}.

(** The objects reachable by reference, and everything printed or written
    so far. *)
Record World := mkWorld {
  geometries : gmap GeometryRef BufferGeometry;
  materials : gmap MaterialRef Material;
  events : list Event
}.

(** [Object3D.clone()]: a new tree of nodes over the same geometries and
    materials. *)
Fixpoint clone (o : Object3D) : Object3D :=
  {| objectName := objectName o;
     isMesh := isMesh o;
     geometry := geometry o;
     material := material o;
     children := map clone (children o) |}.

(** [Object3D.traverse(callback)]: the node first, then each child in order;
    [S] is whatever the callback changes. *)
Fixpoint traverse {S : Type} (callback : Object3D -> S -> S) (o : Object3D)
  (w : S) : S :=
  fold_left (fun w' c => traverse callback c w') (children o) (callback o w).

(** The nodes of a tree in the order [traverse] visits them. *)
Fixpoint nodes (o : Object3D) : list Object3D :=
  o :: flat_map nodes (children o).

Section Scene.

Variable computeBoundingSphere : BufferGeometry -> Completion (option Sphere).

(** Lines 17-65: the callback given to [traverse].  A reference held by a
    node always points to an object; the store lookup cannot fail for a
    scene built by the loader. *)
Definition cleanNode (child : Object3D) (w : World) : World :=
  if isMesh child then
    match geometry child with
    | Some ref =>
        match geometries w !! ref with
        | Some g =>
            let '(g', t) := cleanGeometry computeBoundingSphere g in
            {| geometries := <[ref := g']> (geometries w);
               materials := materials w;
               events := events w ++ t |}
        | None => w
        end
    | None => w
    end
  else w.

(** The callback applied to a list of nodes in order. *)
Definition visitAll (ns : list Object3D) (w : World) : World :=
  fold_left (fun w' n => cleanNode n w') ns w.

(** Lines 14-68: the effect of [useCleanModel], run when [gltf.scene]
    changes.  It returns the world after cleaning and the new value of the
    [cleanScene] state. *)
Definition cleanModelEffect (gltfScene : option Object3D) (w : World)
  (cleanScene : option Object3D) : World * option Object3D :=
  match gltfScene with
  | Some scene =>
      let cleanedScene := clone scene in
      (traverse cleanNode cleanedScene w, Some cleanedScene)
  | None => (w, cleanScene)
  end.

End Scene.

(** The position attribute the callback works on when it visits [o] in world
    [w]: [o] is a mesh, has a geometry, and the geometry has positions. *)
Definition positionOf (w : World) (o : Object3D) : option BufferAttribute :=
  if isMesh o
  then ref ← geometry o; g ← geometries w !! ref; attributes g !! "position"
  else None.

(** The length of the array scanned at [o], if one is scanned. *)
Definition scanLength (w : World) (o : Object3D) : option nat :=
  (fun p => length (array p)) <$> positionOf w o.

(** What one run changes in what is seen of a geometry whose attributes
    share nothing: nothing but the contents and the [needsUpdate] flag of
    the position attribute and the bounding sphere; and nothing at all in a
    geometry without positions. *)
Definition geometryFrame (g g' : BufferGeometry) : Prop :=
  index g' = index g
  /\ (forall k, k <> "position" -> attributes g' !! k = attributes g !! k)
  /\ match attributes g !! "position", attributes g' !! "position" with
     | Some p, Some p' =>
         itemSize p' = itemSize p /\ length (array p') = length (array p)
     | None, None => g' = g
     | _, _ => False
     end.

(** ** React elements and the components of the file *)

(** Values of JSX attributes. *)
#[warnings="-register-all"]
Inductive PropValue :=
| PNum (q : Q)
| PStr (s : string)
| PBool (b : bool)
| PList (l : list PropValue)
| PRecord (fields : list (string * PropValue))
| PPiOver (q : Q)
| PObject (o : Object3D)
| PElement (e : Element)
with Element :=
| Elem (tag : string) (props : list (string * PropValue)) (kids : list Element).

Definition tagOf (e : Element) : string :=
  match e with Elem tag _ _ => tag end.

Definition kidsOf (e : Element) : list Element :=
  match e with Elem _ _ kids => kids end.

(** The value of attribute [k], if the element has it; as in a JSX props
    object, a later attribute of the same name wins. *)
Definition prop (k : string) (e : Element) : option PropValue :=
  match e with
  | Elem _ props _ =>
      fold_left
        (fun acc (kv : string * PropValue) =>
           if decide (fst kv = k) then Some (snd kv) else acc)
        props None
  end.

(** The element and its descendants carrying [tag], in document order. *)
Fixpoint findTag (tag : string) (e : Element) : list Element :=
  match e with
  | Elem t _ kids =>
      (if decide (t = tag) then [e] else []) ++ flat_map (findTag tag) kids
  end.

(** The three lights shared by [Computers] and [FallbackComputer]
    (lines 83-92 and 107-116). *)
Definition lights : list Element :=
  [ Elem "hemisphereLight"
      [("intensity", PNum 1.5%Q); ("groundColor", PStr "black")] [];
    Elem "pointLight" [("intensity", PNum 3%Q)] [];
    Elem "spotLight"
      [("position", PList [PNum (-20)%Q; PNum 50%Q; PNum 10%Q]);
       ("angle", PNum 0.18%Q);
       ("penumbra", PNum 0%Q);
       ("intensity", PNum 5%Q);
       ("castShadow", PBool true);
       ("shadow-mapSize", PNum 3024%Q)] [] ].

Definition rotation : PropValue :=
  PList [PNum (-0.01)%Q; PNum (-0.2)%Q; PNum (-0.1)%Q].

(** Lines 104-136. *)
Definition FallbackComputer (isMobile : bool) : Element :=
  Elem "group" []
    (lights ++
     [ Elem "mesh"
         [("scale", PNum (if isMobile then 0.3 else 0.6)%Q);
          ("position",
           if isMobile
           then PList [PNum 0%Q; PNum (-3)%Q; PNum (-2.2)%Q]
           else PList [PNum 0%Q; PNum (-3.7)%Q; PNum (-1.4)%Q]);
          ("rotation", rotation)]
         [ Elem "boxGeometry"
             [("args", PList [PNum 3%Q; PNum 2%Q; PNum 1%Q])] [];
           Elem "meshStandardMaterial" [("color", PStr "#333")] [] ];
       Elem "mesh"
         [("scale", PNum (if isMobile then 0.25 else 0.5)%Q);
          ("position",
           if isMobile
           then PList [PNum 0%Q; PNum (-1.5)%Q; PNum (-2.5)%Q]
           else PList [PNum 0%Q; PNum (-2)%Q; PNum (-2)%Q]);
          ("rotation", rotation)]
         [ Elem "boxGeometry"
             [("args", PList [PNum 2.5%Q; PNum 0.1%Q; PNum 1.5%Q])] [];
           Elem "meshStandardMaterial" [("color", PStr "#666")] [] ] ]).

(** Line 10: [useState(null)]. *)
Definition initialCleanScene : option Object3D := None.

(** How the render of a component ends: it returns, it suspends (a promise
    is thrown and the nearest [Suspense] shows its fallback), or it throws an
    error. *)
Inductive Render (A : Type) :=
| Returns (a : A)
| Suspends
| Throws.
Arguments Returns {A} a.
Arguments Suspends {A}.
Arguments Throws {A}.

(** What the loader holds for a url: the model is still loading, loading
    failed, or a gltf whose [scene] property is given. *)
Inductive GltfStatus :=
| GltfPending
| GltfRejected
| GltfLoaded (scene : option Object3D).

(** [useGLTF(url)] belongs to drei: it suspends while the model loads, throws
    when loading failed, and returns the gltf otherwise.  The result here is
    [gltf.scene]. *)
Definition useGLTF (loader : string -> GltfStatus) (url : string)
  : Render (option Object3D) :=
  match loader url with
  | GltfPending => Suspends
  | GltfRejected => Throws
  | GltfLoaded scene => Returns scene
  end.

(** Lines 9-12 and 71: [useCleanModel(url)] calls [useGLTF(url)] and, if that
    returns, returns the current [cleanScene] state. *)
Definition useCleanModel (loader : string -> GltfStatus) (url : string)
  (cleanScene : option Object3D) : Render (option Object3D) :=
  match useGLTF loader url with
  | Returns _ => Returns cleanScene
  | Suspends => Suspends
  | Throws => Throws
  end.

Definition modelUrl : string := "/desktop_pc/scene.gltf".

(** Lines 74-101; the argument [cleanSceneState] is the state held by the
    [useCleanModel] hook of this component. *)
Definition Computers (isMobile : bool) (loader : string -> GltfStatus)
  (cleanSceneState : option Object3D) : Render Element :=
  match useCleanModel loader modelUrl cleanSceneState with
  | Returns None =>
      Returns (Elem "FallbackComputer" [("isMobile", PBool isMobile)] [])
  | Returns (Some cleanScene) =>
      Returns
        (Elem "mesh" []
           (lights ++
            [ Elem "primitive"
                [("object", PObject cleanScene);
                 ("scale", PNum (if isMobile then 0.3 else 0.6)%Q);
                 ("position",
                  if isMobile
                  then PList [PNum 0%Q; PNum (-3)%Q; PNum (-2.2)%Q]
                  else PList [PNum 0%Q; PNum (-3.7)%Q; PNum (-1.4)%Q]);
                 ("rotation", rotation)] [] ]))
  | Suspends => Suspends
  | Throws => Throws
  end.

(** React calls the component named by an element's tag.  [expand] does so
    for [FallbackComputer]; a missing or non-boolean [isMobile] is falsy. *)
Fixpoint expand (e : Element) : Element :=
  match e with
  | Elem tag props kids =>
      if decide (tag = "FallbackComputer")
      then FallbackComputer
             (match prop "isMobile" e with Some (PBool b) => b | _ => false end)
      else Elem tag props (map expand kids)
  end.

(** What React draws for [<Computers isMobile={isMobile} />], if the
    render returns. *)
Definition renderComputers (isMobile : bool) (loader : string -> GltfStatus)
  (cleanSceneState : option Object3D) : Render Element :=
  match Computers isMobile loader cleanSceneState with
  | Returns e => Returns (expand e)
  | Suspends => Suspends
  | Throws => Throws
  end.

(** The element a [Suspense] shows while something below it is suspended. *)
Definition fallbackOf (e : Element) : list Element :=
  match prop "fallback" e with
  | Some (PElement f) => [f]
  | _ => []
  end.

(** What React draws for a tree that may hold [<Computers />]: children are
    rendered in order; a suspension replaces the children of the nearest
    [Suspense] above it by the fallback; an error is caught by nothing in
    this file. *)
Fixpoint draw (loader : string -> GltfStatus) (cleanSceneState : option Object3D)
  (e : Element) : Render Element :=
  match e with
  | Elem tag props kids =>
      if decide (tag = "Computers")
      then renderComputers
             (match prop "isMobile" e with Some (PBool b) => b | _ => false end)
             loader cleanSceneState
      else
        let drawn :=
          (fix drawAll (l : list Element) : Render (list Element) :=
             match l with
             | [] => Returns []
             | k :: l' =>
                 match draw loader cleanSceneState k with
                 | Returns k' =>
                     match drawAll l' with
                     | Returns ks => Returns (k' :: ks)
                     | Suspends => Suspends
                     | Throws => Throws
                     end
                 | Suspends => Suspends
                 | Throws => Throws
                 end
             end) kids in
        match drawn with
        | Returns ks =>
            if decide (tag = "FallbackComputer")
            then Returns
                   (FallbackComputer
                      (match prop "isMobile" e with
                       | Some (PBool b) => b
                       | _ => false
                       end))
            else Returns (Elem tag props ks)
        | Suspends =>
            if decide (tag = "Suspense")
            then Returns (Elem tag props (fallbackOf e))
            else Suspends
        | Throws => Throws
        end
  end.

(** ** [ComputersCanvas]: the media query state *)

Definition mobileQuery : string := "(max-width: 500px)".

(** The component's [isMobile] state and the media query list on which its
    change handler is registered, if any. *)
Record CanvasState := mkCanvasState {
  isMobile : bool;
  listening : option string
}.

(** Line 139: [useState(false)]; no listener before the effect has run. *)
Definition initialCanvasState : CanvasState :=
  {| isMobile := false; listening := None |}.

(** Lines 145-147. *)
Definition handleMediaQueryChange (eventMatches : bool) (st : CanvasState)
  : CanvasState :=
  {| isMobile := eventMatches; listening := listening st |}.

(** What happens to a mounted [ComputersCanvas]:
    - [Mount matchMedia]: the effect of lines 141-154 runs;
      [matchMedia q] is [window.matchMedia(q).matches] at that time;
    - [Change q m]: the media query list of [q] fires a change event with
      [event.matches = m];
    - [Unmount]: the cleanup of lines 151-153 runs. *)
Inductive CanvasEvent :=
| Mount (matchMedia : string -> bool)
| Change (query : string) (eventMatches : bool)
| Unmount.

Definition canvasStep (st : CanvasState) (ev : CanvasEvent) : CanvasState :=
  match ev with
  | Mount matchMedia =>
      {| isMobile := matchMedia mobileQuery; listening := Some mobileQuery |}
  | Change query eventMatches =>
      if decide (listening st = Some query)
      then handleMediaQueryChange eventMatches st
      else st
  | Unmount => {| isMobile := isMobile st; listening := None |}
  end.

(** Lines 156-183. *)
Definition ComputersCanvas (st : CanvasState) : Element :=
  Elem "Canvas"
    [("frameloop", PStr "demand");
     ("shadows", PBool true);
     ("dpr", PList [PNum 1%Q; PNum 2%Q]);
     ("camera",
      PRecord [("position", PList [PNum 20%Q; PNum 3%Q; PNum 5%Q]);
               ("fov", PNum 25%Q)]);
     ("gl", PRecord [("preserveDrawingBuffer", PBool true)]);
     ("style",
      PRecord [("height", PStr "100%");
               ("width", PStr "100%");
               ("position", PStr "absolute");
               ("top", PNum 0%Q);
               ("left", PNum 0%Q);
               ("zIndex", PNum 0%Q)])]
    [ Elem "Suspense" [("fallback", PElement (Elem "CanvasLoader" [] []))]
        [ Elem "OrbitControls"
            [("enableZoom", PBool false);
             ("maxPolarAngle", PPiOver 2%Q);
             ("minPolarAngle", PPiOver 2%Q)] [];
          Elem "Computers" [("isMobile", PBool (isMobile st))] [] ];
      Elem "Preload" [("all", PBool true)] [] ].

(** ** Concrete inputs *)

Module Sample.

Definition fadd : number -> number -> number := SFadd prec emax.
Definition fsub : number -> number -> number := SFsub prec emax.
Definition fmul : number -> number -> number := SFmul prec emax.
Definition fsqrt : number -> number := SFsqrt prec emax.
Definition fmin (x y : number) : number := if SFltb y x then y else x.
Definition fmax (x y : number) : number := if SFltb x y then y else x.
Definition half : number := binary_normalize prec emax 1 (-1) false.

(** The vertices held by a position array of item size 3. *)
Fixpoint vertices (a : list number) : list Vector3 :=
  match a with
  | x :: y :: z :: a' => mkVector3 x y z :: vertices a'
  | _ => []
  end.

Definition boxMin (vs : list Vector3) : Vector3 :=
  fold_left
    (fun m v => mkVector3 (fmin (vx m) (vx v)) (fmin (vy m) (vy v))
                          (fmin (vz m) (vz v)))
    vs
    (mkVector3 (S754_infinity false) (S754_infinity false)
               (S754_infinity false)).

Definition boxMax (vs : list Vector3) : Vector3 :=
  fold_left
    (fun m v => mkVector3 (fmax (vx m) (vx v)) (fmax (vy m) (vy v))
                          (fmax (vz m) (vz v)))
    vs
    (mkVector3 (S754_infinity true) (S754_infinity true)
               (S754_infinity true)).

Definition boxCenter (vs : list Vector3) : Vector3 :=
  match vs with
  | [] => mkVector3 zero zero zero
  | _ =>
      let lo := boxMin vs in
      let hi := boxMax vs in
      mkVector3 (fmul (fadd (vx lo) (vx hi)) half)
                (fmul (fadd (vy lo) (vy hi)) half)
                (fmul (fadd (vz lo) (vz hi)) half)
  end.

Definition distanceToSquared (c v : Vector3) : number :=
  let dx := fsub (vx c) (vx v) in
  let dy := fsub (vy c) (vy v) in
  let dz := fsub (vz c) (vz v) in
  fadd (fadd (fmul dx dx) (fmul dy dy)) (fmul dz dz).

(** A library behaviour to run the pass with: the sphere centred on the
    bounding box of the vertices that reaches the farthest vertex, in
    binary64 arithmetic.  A geometry without positions keeps its sphere. *)
Definition boxCentredSphere (g : BufferGeometry) : Completion (option Sphere) :=
  match attributes g !! "position" with
  | None => Returned (boundingSphere g)
  | Some p =>
      let vs := vertices (array p) in
      let c := boxCenter vs in
      let r2 := fold_left (fun m v => fmax m (distanceToSquared c v)) vs zero in
      Returned (Some (mkSphere c (fsqrt r2)))
  end.

(** A library behaviour that always throws, leaving the sphere as it was. *)
Definition alwaysThrows (g : BufferGeometry) : Completion (option Sphere) :=
  Thrown (boundingSphere g).

Definition nan : number := S754_nan.
Definition inf : number := S754_infinity false.
Definition ninf : number := S754_infinity true.

Definition normals : BufferAttribute :=
  {| array := [zero; zero; ofZ 1; nan; zero; ofZ 1; zero; zero; ofZ 1];
     itemSize := 3; needsUpdate := false |}.

(** A triangle with three damaged coordinates. *)
Definition dirtyPosition : BufferAttribute :=
  {| array := [ofZ 1; nan; zero; inf; ofZ 2; zero; zero; zero; ninf];
     itemSize := 3; needsUpdate := false |}.

Definition dirtyTriangle : BufferGeometry :=
  {| attributes := <["position" := dirtyPosition]> (<["normal" := normals]> ∅);
     index := Some {| array := [zero; ofZ 1; ofZ 2];
                      itemSize := 1; needsUpdate := false |};
     boundingSphere := None |}.

(** The same positions in a geometry that differs in everything else. *)
Definition dirtyTriangleAgain : BufferGeometry :=
  {| attributes :=
       {["position" := {| array := array dirtyPosition;
                          itemSize := 3; needsUpdate := true |}]};
     index := None;
     boundingSphere := Some defaultSphere |}.

(** A triangle with finite coordinates. *)
Definition cleanPosition : BufferAttribute :=
  {| array := [zero; zero; zero; ofZ 4; zero; zero; zero; ofZ 2; zero];
     itemSize := 3; needsUpdate := false |}.

Definition cleanTriangle : BufferGeometry :=
  {| attributes := <["position" := cleanPosition]> (<["normal" := normals]> ∅);
     index := None;
     boundingSphere := None |}.

(** Two vertices at the same finite point. *)
Definition coincidentPosition : BufferAttribute :=
  {| array := [ofZ 1; ofZ 2; ofZ 3; ofZ 1; ofZ 2; ofZ 3];
     itemSize := 3; needsUpdate := false |}.

Definition coincident : BufferGeometry :=
  {| attributes := {["position" := coincidentPosition]};
     index := None;
     boundingSphere := None |}.

(** A geometry without positions. *)
Definition bare : BufferGeometry :=
  {| attributes := {["normal" := normals]};
     index := None;
     boundingSphere := None |}.

Definition plastic : Material :=
  {| materialName := "plastic"; materialColor := "#222" |}.

Definition node (name : string) (mesh : bool) (g : option GeometryRef)
  (kids : list Object3D) : Object3D :=
  {| objectName := name; isMesh := mesh; geometry := g;
     material := if mesh then Some 1%positive else None; children := kids |}.

(** A scene in which two meshes share geometry 1 and a line (not a mesh)
    owns geometry 3. *)
Definition scene : Object3D :=
  node "Scene" false None
    [ node "case" true (Some 1%positive) [];
      node "desk" false None
        [ node "screen" true (Some 1%positive) [];
          node "keyboard" true (Some 2%positive) [] ];
      node "cable" false (Some 3%positive) [] ].

Definition world : World :=
  {| geometries :=
       <[1%positive := dirtyTriangle]>
         (<[2%positive := coincident]> (<[3%positive := dirtyTriangle]> ∅));
     materials := {[1%positive := plastic]};
     events := [] |}.

End Sample.

(** ** Objects by reference

    In three.js the objects hang together by reference: interleaved
    attributes of one geometry share one array ([position.array] and
    [normal.array] are the same object), and the loader hands one attribute
    object to several geometries.  [Shared] keeps arrays, attribute objects
    and geometries in stores of their own; [BufferGeometry] above is what
    the callback sees of one geometry through these references. *)

Module Shared.

Definition ArrayRef := positive.
Definition AttributeRef := positive.

Record Attribute := mkAttribute {
  arrayRef : ArrayRef;
  attributeItemSize : nat;
  attributeNeedsUpdate : bool
}.

Record Geometry := mkGeometry {
  attributeRefs : gmap string AttributeRef;
  indexRef : option AttributeRef;
  sphere : option Sphere
}.

Record Heap := mkHeap {
  arrays : gmap ArrayRef (list number);
  attributeObjects : gmap AttributeRef Attribute;
  geometryObjects : gmap GeometryRef Geometry;
  heapMaterials : gmap MaterialRef Material;
  heapEvents : list Event
}.

(** An attribute object with the contents of its array. *)
Definition viewAttribute (h : Heap) (aref : AttributeRef) : option BufferAttribute :=
  a ← attributeObjects h !! aref;
  data ← arrays h !! arrayRef a;
  Some {| array := data;
          itemSize := attributeItemSize a;
          needsUpdate := attributeNeedsUpdate a |}.

(** A geometry with its attributes resolved. *)
Definition viewGeometry (h : Heap) (g : Geometry) : BufferGeometry :=
  {| attributes := omap (viewAttribute h) (attributeRefs g);
     index := indexRef g ≫= viewAttribute h;
     boundingSphere := sphere g |}.

Section Pass.

Variable computeBoundingSphere : BufferGeometry -> Completion (option Sphere).

(** Lines 19-63 on the objects themselves: the scan writes into the array
    that [position.array] refers to, [needsUpdate] is set on the attribute
    object, and the sphere is stored in the geometry.  The library is given
    the geometry as it then is. *)
Definition cleanGeometryAt (gref : GeometryRef) (h : Heap) : Heap :=
  match geometryObjects h !! gref with
  | None => h
  | Some g =>
      match attributeRefs g !! "position" with
      | None => h
      | Some aref =>
          match attributeObjects h !! aref with
          | None => h
          | Some a =>
              match arrays h !! arrayRef a with
              | None => h
              | Some data =>
                  let '(position', t1) :=
                    fixPosition {| array := data;
                                   itemSize := attributeItemSize a;
                                   needsUpdate := attributeNeedsUpdate a |} in
                  let h1 :=
                    {| arrays := <[arrayRef a := array position']> (arrays h);
                       attributeObjects :=
                         <[aref := {| arrayRef := arrayRef a;
                                      attributeItemSize := attributeItemSize a;
                                      attributeNeedsUpdate := needsUpdate position' |}]>
                           (attributeObjects h);
                       geometryObjects := geometryObjects h;
                       heapMaterials := heapMaterials h;
                       heapEvents := heapEvents h ++ t1 |} in
                  let '(v2, t2) :=
                    tryComputeBoundingSphere computeBoundingSphere
                      (viewGeometry h1 g) in
                  let '(v3, t3) := forceBoundingSphere v2 in
                  {| arrays := arrays h1;
                     attributeObjects := attributeObjects h1;
                     geometryObjects :=
                       <[gref := {| attributeRefs := attributeRefs g;
                                    indexRef := indexRef g;
                                    sphere := boundingSphere v3 |}]>
                         (geometryObjects h);
                     heapMaterials := heapMaterials h;
                     heapEvents := heapEvents h1 ++ t2 ++ t3 |}
              end
          end
      end
  end.



End Pass.







End Shared.

(** ** Further observations and inputs *)

(** The indices of the [Store] events of a trace, in order. *)
Definition stored (t : list Event) : list nat :=
  omap (fun e => match e with Store i => Some i | _ => None end) t.

(** The position array of a geometry, if it has one. *)
Definition positionArray (g : BufferGeometry) : option (list number) :=
  array <$> attributes g !! "position".

(** The distinct geometries with positions that the meshes of a scene refer
    to, and the number of coordinates they hold together. *)
Definition meshGeometries (w : World) (o : Object3D) : list GeometryRef :=
  remove_dups
    (omap (fun n => match positionOf w n with
                    | Some _ => geometry n
                    | None => None
                    end) (nodes o)).

Definition meshElements (w : World) (o : Object3D) : nat :=
  sum_list_with
    (fun ref => default 0 (length <$> (geometries w !! ref ≫= positionArray)))
    (meshGeometries w o).

(** The events that write into a position attribute. *)
Definition positionWrites (t : list Event) : list Event :=
  omap (fun e => match e with
                 | Store _ | SetNeedsUpdate => Some e
                 | _ => None
                 end) t.

(** The geometry at [ref] has positions, and they are [a]. *)
Definition holdsPositions (w : World) (ref : GeometryRef) (a : list number)
  : Prop :=
  exists g, geometries w !! ref = Some g /\ positionArray g = Some a.

(** The geometry at [ref] has the positions [a] with every [NaN] and infinity
    replaced by [0], and a bounding sphere that passes the check of lines
    53-57. *)
Definition cleanedAt (w : World) (ref : GeometryRef) (a : list number) : Prop :=
  exists g, geometries w !! ref = Some g
            /\ positionArray g = Some (cleaned <$> a)
            /\ sphereInvalid (boundingSphere g) = false.

Module Probe.

(** A library behaviour that throws as soon as a coordinate is not finite
    and otherwise behaves as [Sample.boxCentredSphere]. *)
Definition strict (g : BufferGeometry) : Completion (option Sphere) :=
  match attributes g !! "position" with
  | Some p =>
      if forallb isFinite (array p)
      then Sample.boxCentredSphere g
      else Thrown (boundingSphere g)
  | None => Sample.boxCentredSphere g
  end.

(** A library behaviour that answers with a sphere of infinite radius, as
    three.js does for a buffer it cannot read. *)
Definition unbounded (g : BufferGeometry) : Completion (option Sphere) :=
  Returned (Some (mkSphere (mkVector3 zero zero zero) (S754_infinity false))).

End Probe.

(** * Properties of the model *)

(** ** The scan in closed form *)

Lemma isBad_not_finite x : isBad x = negb (isFinite x).
Proof. destruct x; reflexivity. Qed.

Lemma cleaned_finite x : isFinite (cleaned x) = true.
Proof. unfold cleaned. rewrite isBad_not_finite. destruct x; reflexivity. Qed.

Lemma scanFrom_lt i st :
  i < length (arr st) -> scanFrom i st = scanFrom (S i) (scanBody i st).
Proof.
  intros H. rewrite scanFrom_equation_1.
  destruct (decide (i < length (arr st))); [reflexivity | contradiction].
Qed.

Lemma scanFrom_ge i st : length (arr st) <= i -> scanFrom i st = st.
Proof.
  intros H. rewrite scanFrom_equation_1.
  destruct (decide (i < length (arr st))); [lia | reflexivity].
Qed.

Lemma scanBody_at i st x :
  arr st !! i = Some x ->
  scanBody i st =
  {| arr := <[i := cleaned x]> (arr st);
     needsFix := needsFix st || isBad x;
     trace := trace st ++ elementEvents i x |}.
Proof.
  intros Hx. unfold scanBody, isBadAt, readsAt, elementEvents, cleaned. rewrite Hx.
  destruct (isBad x).
  - rewrite orb_true_r. reflexivity.
  - rewrite orb_false_r, app_nil_r, list_insert_id by exact Hx. reflexivity.
Qed.

Lemma scanFrom_closed n : forall i st,
  length (arr st) = i + n ->
  scanFrom i st =
  {| arr := take i (arr st) ++ (cleaned <$> drop i (arr st));
     needsFix := needsFix st || existsb isBad (drop i (arr st));
     trace := trace st ++ scanEvents i (drop i (arr st)) |}.
Proof.
  induction n as [|n IH]; intros i st Hlen.
  - rewrite scanFrom_ge by lia.
    rewrite drop_ge, take_ge by lia. simpl.
    rewrite orb_false_r, !app_nil_r. destruct st; reflexivity.
  - destruct (lookup_lt_is_Some_2 (arr st) i) as [x Hx]; [lia|].
    rewrite scanFrom_lt by lia.
    rewrite (scanBody_at _ _ _ Hx).
    rewrite IH by (simpl; rewrite length_insert; lia).
    simpl.
    rewrite (drop_S _ _ _ Hx). simpl.
    rewrite drop_insert_lt by lia.
    rewrite (take_S_r (<[i:=cleaned x]> (arr st)) i (cleaned x))
      by (apply list_lookup_insert_eq; lia).
    rewrite take_insert_ge by lia.
    rewrite <- !app_assoc. simpl.
    rewrite orb_assoc. reflexivity.
Qed.

Lemma scanBody_length i st : length (arr (scanBody i st)) = length (arr st).
Proof.
  unfold scanBody. destruct (isBadAt (arr st) i); simpl;
    [apply length_insert | reflexivity].
Qed.

Lemma scanSteps_run n : forall i st,
  length (arr st) = i + n ->
  scanSteps n (i, st) = Some (i + n, scanFrom i st).
Proof.
  induction n as [|n IH]; intros i st Hlen; simpl.
  - rewrite scanFrom_ge by lia. rewrite Nat.add_0_r. reflexivity.
  - unfold scanStep. simpl. rewrite decide_True by lia.
    rewrite IH by (rewrite scanBody_length; lia).
    rewrite (scanFrom_lt i st) by lia. f_equal. f_equal. lia.
Qed.

Lemma scanSteps_prefix k : forall i st,
  i + k <= length (arr st) ->
  exists st', scanSteps k (i, st) = Some (i + k, st')
              /\ length (arr st') = length (arr st).
Proof.
  induction k as [|k IH]; intros i st Hlen; simpl.
  - exists st. rewrite Nat.add_0_r. auto.
  - unfold scanStep. simpl. rewrite decide_True by lia.
    destruct (IH (S i) (scanBody i st)) as (st' & Hst' & Hl).
    { rewrite scanBody_length. lia. }
    exists st'. rewrite Hst', Hl, scanBody_length.
    split; [f_equal; f_equal; lia | reflexivity].
Qed.

Lemma scanArray_closed a :
  scanArray a =
  {| arr := cleaned <$> a; needsFix := existsb isBad a; trace := scanEvents 0 a |}.
Proof.
  unfold scanArray. rewrite (scanFrom_closed (length a)) by reflexivity.
  reflexivity.
Qed.

Lemma inspected_app t1 t2 : inspected (t1 ++ t2) = inspected t1 ++ inspected t2.
Proof. apply omap_app. Qed.

Lemma inspected_elementEvents i x :
  inspected (elementEvents i x) = inspected (readsOf i x).
Proof.
  unfold elementEvents. rewrite inspected_app.
  destruct (isBad x); simpl; rewrite app_nil_r; reflexivity.
Qed.

Lemma inspected_scanEvents l : forall pre,
  inspected (scanEvents (length pre) l) =
  flat_map (fun j => inspected (readsAt (pre ++ l) j))
           (seq (length pre) (length l)).
Proof.
  induction l as [|x l IH]; intros pre; [reflexivity|].
  simpl. rewrite inspected_app, inspected_elementEvents.
  unfold readsAt at 1. rewrite list_lookup_middle by reflexivity.
  f_equal.
  specialize (IH (pre ++ [x])).
  rewrite length_app, Nat.add_1_r, <- app_assoc in IH. exact IH.
Qed.

Lemma inspected_scanEvents_length l : forall i,
  length l <= length (inspected (scanEvents i l)) <= 2 * length l.
Proof.
  induction l as [|x l IH]; intros i; simpl; [lia|].
  rewrite inspected_app, inspected_elementEvents, length_app.
  specialize (IH (S i)). unfold readsOf. destruct (isNaN x); simpl; lia.
Qed.

Lemma existsb_isBad a :
  existsb isBad a = true <-> exists i x, a !! i = Some x /\ isFinite x = false.
Proof.
  rewrite existsb_exists. split.
  - intros (x & Hin & Hbad). apply list_elem_of_In, list_elem_of_lookup in Hin.
    destruct Hin as [i Hi]. exists i, x. split; [exact Hi|].
    rewrite isBad_not_finite in Hbad. destruct (isFinite x); [discriminate | reflexivity].
  - intros (i & x & Hi & Hfin). exists x. split.
    + apply list_elem_of_In, list_elem_of_lookup. exists i. exact Hi.
    + rewrite isBad_not_finite, Hfin. reflexivity.
Qed.

Lemma cleaned_id_finite a :
  Forall (fun x => isFinite x = true) a -> cleaned <$> a = a.
Proof.
  induction 1 as [|x a Hx _ IH]; [reflexivity|].
  rewrite fmap_cons, IH. unfold cleaned. rewrite isBad_not_finite, Hx. reflexivity.
Qed.

Lemma existsb_isBad_finite a :
  Forall (fun x => isFinite x = true) a -> existsb isBad a = false.
Proof.
  induction 1 as [|x a Hx _ IH]; simpl; [reflexivity|].
  rewrite IH, isBad_not_finite, Hx. reflexivity.
Qed.

Lemma Forall_cleaned a : Forall (fun x => isFinite x = true) (cleaned <$> a).
Proof. apply Forall_fmap, Forall_true. intros x. apply cleaned_finite. Qed.

Lemma fixPosition_closed p :
  fixPosition p =
  ({| array := cleaned <$> array p;
      itemSize := itemSize p;
      needsUpdate := if existsb isBad (array p) then true else needsUpdate p |},
   scanEvents 0 (array p)
     ++ (if existsb isBad (array p)
         then [ConsoleLog msgFixed; SetNeedsUpdate] else [])).
Proof.
  unfold fixPosition. rewrite scanArray_closed. simpl.
  destruct (existsb isBad (array p)); [reflexivity|].
  rewrite app_nil_r. reflexivity.
Qed.

Lemma scanEvents_no_other e l : forall i,
  (forall j, e <> Inspect j) -> (forall j, e <> Store j) ->
  e ∉ scanEvents i l.
Proof.
  induction l as [|x l IH]; intros i H1 H2; simpl.
  - apply not_elem_of_nil.
  - rewrite elem_of_app. intros [H|H].
    + unfold elementEvents, readsOf in H.
      destruct (isNaN x), (isBad x); simpl in H;
        repeat (apply elem_of_cons in H as [->|H]);
        try (by eapply H1); try (by eapply H2); by apply elem_of_nil in H.
    + exact (IH _ H1 H2 H).
Qed.

Section GeometryFacts.

Variable cbs : BufferGeometry -> Completion (option Sphere).

Lemma cleanGeometry_fst g p :
  attributes g !! "position" = Some p ->
  (cleanGeometry cbs g).1 =
  {| attributes := <["position" := (fixPosition p).1]> (attributes g);
     index := index g;
     boundingSphere :=
       Some (finalSphere (cbs (setAttribute g "position" (fixPosition p).1))) |}.
Proof.
  intros Hp. unfold cleanGeometry. rewrite Hp.
  destruct (fixPosition p) as [p' t1]. simpl.
  unfold tryComputeBoundingSphere, forceBoundingSphere.
  destruct (cbs (setAttribute g "position" p')) as [[s|]|bs]; simpl; try reflexivity.
  destruct (isNaN (radius s) || strictEq (radius s) zero); reflexivity.
Qed.

End GeometryFacts.

(** ** Claims about one geometry *)

Section GeometryClaims.

Variable cbs : BufferGeometry -> Completion (option Sphere).

(** C1. For a geometry with a position attribute, after the pass the
    position array has the same length, every element is finite, and the
    element at each index is the original one if that was finite and [0]
    if it was [NaN] or infinite. *)
Theorem clean_positions_finite (g : BufferGeometry) (position : BufferAttribute) :
  attributes g !! "position" = Some position ->
  exists position',
    attributes (cleanGeometry cbs g).1 !! "position" = Some position'
    /\ length (array position') = length (array position)
    /\ Forall (fun y => isFinite y = true) (array position')
    /\ forall i x, array position !! i = Some x ->
         array position' !! i = Some (if isFinite x then x else zero).
Proof.
  intros Hp. rewrite (cleanGeometry_fst cbs g position Hp). simpl.
  rewrite lookup_insert_eq. eexists. split; [reflexivity|].
  rewrite fixPosition_closed. simpl. split; [apply length_fmap|].
  split; [apply Forall_cleaned|].
  intros i x Hx. rewrite list_lookup_fmap, Hx. simpl.
  unfold cleaned. rewrite isBad_not_finite. destruct (isFinite x); reflexivity.
Qed.

(** C2. For a geometry with a position attribute, after the pass the
    geometry has a bounding sphere whose radius is neither [NaN] nor [0]:
    the default sphere (centre the origin, radius 5) if the library call
    threw or left no sphere, a [NaN] radius or a radius equal to 0, and the
    computed sphere otherwise. *)
Theorem bounding_sphere_valid (g : BufferGeometry) (position : BufferAttribute) :
  attributes g !! "position" = Some position ->
  let scanned := setAttribute g "position" (fixPosition position).1 in
  let final := boundingSphere (cleanGeometry cbs g).1 in
  (exists s, final = Some s
             /\ isNaN (radius s) = false
             /\ strictEq (radius s) zero = false)
  /\ defaultSphere =
       mkSphere (mkVector3 zero zero zero)
                (S754_finite false (5 * 2 ^ 50) (-50))
  /\ match cbs scanned with
     | Thrown _ => final = Some defaultSphere
     | Returned None => final = Some defaultSphere
     | Returned (Some s) =>
         if isNaN (radius s) || strictEq (radius s) zero
         then final = Some defaultSphere
         else final = Some s
     end.
Proof.
  intros Hp scanned final. subst final.
  rewrite (cleanGeometry_fst cbs g position Hp). simpl. fold scanned.
  split; [|split; [reflexivity|]].
  - eexists. split; [reflexivity|].
    destruct (cbs scanned) as [[s|]|bs]; simpl; try (split; reflexivity).
    destruct (isNaN (radius s) || strictEq (radius s) zero) eqn:E; simpl.
    + split; reflexivity.
    + apply orb_false_elim in E. exact E.
  - destruct (cbs scanned) as [[s|]|bs]; simpl; try reflexivity.
    destruct (isNaN (radius s) || strictEq (radius s) zero); reflexivity.
Qed.

(** C9. A geometry whose coordinates are all finite and for which the
    library returns a sphere of radius 0 (as it does for coincident
    vertices) comes out of the pass unchanged except that its bounding
    sphere is the default sphere: the computed sphere is discarded. *)
Theorem zero_radius_replaced (g : BufferGeometry) (position : BufferAttribute)
  (s : Sphere) :
  attributes g !! "position" = Some position ->
  Forall (fun x => isFinite x = true) (array position) ->
  cbs g = Returned (Some s) ->
  strictEq (radius s) zero = true ->
  (cleanGeometry cbs g).1 = setBoundingSphere g (Some defaultSphere)
  /\ center defaultSphere = mkVector3 zero zero zero
  /\ radius defaultSphere = ofZ 5.
Proof.
  intros Hp Hfin Hcbs Hzero. split; [|split; reflexivity].
  rewrite (cleanGeometry_fst cbs g position Hp).
  assert (Hfix : (fixPosition position).1 = position).
  { rewrite fixPosition_closed. simpl.
    rewrite cleaned_id_finite, existsb_isBad_finite by assumption.
    destruct position; reflexivity. }
  rewrite Hfix.
  assert (Hg : setAttribute g "position" position = g).
  { unfold setAttribute. rewrite insert_id by exact Hp. destruct g; reflexivity. }
  rewrite Hg, Hcbs. simpl. rewrite Hzero, orb_true_r.
  unfold setBoundingSphere. rewrite insert_id by exact Hp. reflexivity.
Qed.

End GeometryClaims.

(** C7. Two runs of the pass on geometries whose position arrays are equal,
    with library calls that complete in the same way, leave equal position
    arrays and equal bounding spheres and produce the same trace, whatever
    else differs between the two geometries (other attributes, flags, the
    sphere left by an earlier run). *)
Theorem cleaning_deterministic
  (cbs1 cbs2 : BufferGeometry -> Completion (option Sphere))
  (g1 g2 : BufferGeometry) (p1 p2 : BufferAttribute) :
  attributes g1 !! "position" = Some p1 ->
  attributes g2 !! "position" = Some p2 ->
  array p1 = array p2 ->
  cbs1 (setAttribute g1 "position" (fixPosition p1).1) =
  cbs2 (setAttribute g2 "position" (fixPosition p2).1) ->
  exists q1 q2,
    attributes (cleanGeometry cbs1 g1).1 !! "position" = Some q1
    /\ attributes (cleanGeometry cbs2 g2).1 !! "position" = Some q2
    /\ array q1 = array q2
    /\ boundingSphere (cleanGeometry cbs1 g1).1 =
       boundingSphere (cleanGeometry cbs2 g2).1
    /\ (cleanGeometry cbs1 g1).2 = (cleanGeometry cbs2 g2).2.
Proof.
  intros H1 H2 Harr Hcbs.
  exists (fixPosition p1).1, (fixPosition p2).1.
  rewrite (cleanGeometry_fst cbs1 g1 p1 H1), (cleanGeometry_fst cbs2 g2 p2 H2).
  simpl. rewrite !lookup_insert_eq, Hcbs.
  repeat split; try reflexivity.
  - rewrite !fixPosition_closed. simpl. rewrite Harr. reflexivity.
  - unfold cleanGeometry. rewrite H1, H2.
    unfold tryComputeBoundingSphere, forceBoundingSphere.
    rewrite (surjective_pairing (fixPosition p1)), (surjective_pairing (fixPosition p2)).
    rewrite Hcbs.
    assert (Ht : (fixPosition p1).2 = (fixPosition p2).2).
    { rewrite !fixPosition_closed. simpl. rewrite Harr. reflexivity. }
    rewrite Ht.
    destruct (cbs2 _) as [bs|bs]; simpl.
    + destruct (sphereInvalid bs); reflexivity.
    + reflexivity.
Qed.

(** C8. Scanning an array whose elements are all finite changes nothing and
    leaves [needsFix] false; hence scanning the result of a scan changes
    nothing and reports no fix. *)
Theorem scan_idempotent (a : list number) :
  (Forall (fun x => isFinite x = true) a ->
   arr (scanArray a) = a /\ needsFix (scanArray a) = false)
  /\ arr (scanArray (arr (scanArray a))) = arr (scanArray a)
  /\ needsFix (scanArray (arr (scanArray a))) = false.
Proof.
  assert (H : forall b, Forall (fun x => isFinite x = true) b ->
                        arr (scanArray b) = b /\ needsFix (scanArray b) = false).
  { intros b Hb. rewrite scanArray_closed. simpl.
    split; [apply cleaned_id_finite | apply existsb_isBad_finite]; exact Hb. }
  split; [apply H|].
  apply H. rewrite scanArray_closed. simpl. apply Forall_cleaned.
Qed.

(** C10. The write [position.needsUpdate = true] happens if and only if some
    element of the position array was [NaN] or infinite; when it happens the
    flag is true afterwards, and when it does not the flag keeps its value. *)
Theorem needsUpdate_iff_replaced (position : BufferAttribute) :
  let '(position', t) := fixPosition position in
  (SetNeedsUpdate ∈ t <->
   exists i x, array position !! i = Some x /\ isFinite x = false)
  /\ (SetNeedsUpdate ∈ t -> needsUpdate position' = true)
  /\ (SetNeedsUpdate ∉ t -> needsUpdate position' = needsUpdate position).
Proof.
  rewrite fixPosition_closed.
  rewrite <- existsb_isBad.
  assert (Hno : forall i l, SetNeedsUpdate ∉ scanEvents i l).
  { intros i l. apply scanEvents_no_other; discriminate. }
  destruct (existsb isBad (array position)) eqn:E.
  - split; [|split].
    + split; [reflexivity|]. intros _. rewrite elem_of_app. right.
      apply elem_of_cons. right. apply list_elem_of_singleton. reflexivity.
    + reflexivity.
    + intros Hn. exfalso. apply Hn. rewrite elem_of_app. right.
      apply elem_of_cons. right. apply list_elem_of_singleton. reflexivity.
  - rewrite app_nil_r. split; [|split].
    + split; [|discriminate]. intros Hin. exfalso. exact (Hno _ _ Hin).
    + intros Hin. exfalso. exact (Hno _ _ Hin).
    + reflexivity.
Qed.

(** ** The traversal *)

Lemma Object3D_forall_ind (P : Object3D -> Prop) :
  (forall name mesh g m kids,
      Forall P kids -> P (mkObject3D name mesh g m kids)) ->
  forall o, P o.
Proof.
  intros H. fix IH 1. intros [name mesh g m kids]. apply H.
  induction kids as [|c kids IHkids]; constructor; [apply IH | exact IHkids].
Qed.

Lemma clone_id o : clone o = o.
Proof.
  induction o as [name mesh g m kids IH] using Object3D_forall_ind.
  simpl. f_equal. induction IH as [|c kids Hc _ IHk]; simpl; [reflexivity|].
  rewrite Hc, IHk. reflexivity.
Qed.

Lemma traverse_nodes {S : Type} (callback : Object3D -> S -> S) o : forall w,
  traverse callback o w = fold_left (fun w' n => callback n w') (nodes o) w.
Proof.
  induction o as [name mesh g m kids IH] using Object3D_forall_ind.
  intros w. simpl. generalize (callback (mkObject3D name mesh g m kids) w).
  induction IH as [|c kids Hc _ IHk]; intros w0; simpl; [reflexivity|].
  rewrite fold_left_app, Hc. apply IHk.
Qed.

Lemma occurrences_app e t1 t2 :
  occurrences e (t1 ++ t2) = occurrences e t1 + occurrences e t2.
Proof. unfold occurrences. rewrite filter_app, length_app. reflexivity. Qed.

Lemma occurrences_scanEvents l : forall i,
  occurrences CallComputeBoundingSphere (scanEvents i l) = 0.
Proof.
  induction l as [|x l IH]; intros i; simpl; [reflexivity|].
  rewrite occurrences_app, IH. unfold elementEvents, readsOf.
  destruct (isNaN x), (isBad x); reflexivity.
Qed.

Section TraversalFacts.

Variable cbs : BufferGeometry -> Completion (option Sphere).

Lemma cleanGeometry_none g :
  attributes g !! "position" = None -> cleanGeometry cbs g = (g, []).
Proof. intros H. unfold cleanGeometry. rewrite H. reflexivity. Qed.

Lemma cleanGeometry_trace g p :
  attributes g !! "position" = Some p ->
  inspected (cleanGeometry cbs g).2 = inspected (scanEvents 0 (array p))
  /\ occurrences CallComputeBoundingSphere (cleanGeometry cbs g).2 = 1.
Proof.
  intros Hp. unfold cleanGeometry. rewrite Hp.
  rewrite fixPosition_closed.
  unfold tryComputeBoundingSphere, forceBoundingSphere.
  match goal with |- context [cbs ?x] => generalize (cbs x) end.
  assert (Hscan : forall t,
             inspected t = [] ->
             occurrences CallComputeBoundingSphere t = 1 ->
             inspected ((scanEvents 0 (array p)
                         ++ (if existsb isBad (array p)
                             then [ConsoleLog msgFixed; SetNeedsUpdate] else []))
                        ++ t) = inspected (scanEvents 0 (array p))
             /\ occurrences CallComputeBoundingSphere
                  ((scanEvents 0 (array p)
                    ++ (if existsb isBad (array p)
                        then [ConsoleLog msgFixed; SetNeedsUpdate] else []))
                   ++ t) = 1).
  { intros t Hi Ho.
    rewrite !inspected_app, !occurrences_app, occurrences_scanEvents, Hi, Ho.
    destruct (existsb isBad (array p)); simpl; rewrite ?app_nil_r; split; reflexivity. }
  intros [bs|bs]; simpl.
  - destruct (sphereInvalid bs); simpl; apply Hscan; reflexivity.
  - apply Hscan; reflexivity.
Qed.

Lemma cleanGeometry_frame g : geometryFrame g (cleanGeometry cbs g).1.
Proof.
  unfold geometryFrame.
  destruct (attributes g !! "position") as [p|] eqn:Hp.
  - rewrite (cleanGeometry_fst cbs g p Hp). simpl.
    split; [reflexivity|]. split.
    + intros k Hk. apply lookup_insert_ne. congruence.
    + rewrite lookup_insert_eq, fixPosition_closed. simpl.
      split; [reflexivity | apply length_fmap].
  - rewrite (cleanGeometry_none g Hp). simpl. rewrite Hp. auto.
Qed.

Lemma geometryFrame_refl g : geometryFrame g g.
Proof.
  unfold geometryFrame. split; [reflexivity|]. split; [reflexivity|].
  destruct (attributes g !! "position"); [split|]; reflexivity.
Qed.

Lemma geometryFrame_trans g1 g2 g3 :
  geometryFrame g1 g2 -> geometryFrame g2 g3 -> geometryFrame g1 g3.
Proof.
  unfold geometryFrame. intros (Hi & Hk & Hp) (Hi' & Hk' & Hp').
  split; [congruence|]. split.
  - intros k Hne. rewrite Hk', Hk by exact Hne. reflexivity.
  - destruct (attributes g1 !! "position"), (attributes g2 !! "position") eqn:E2,
      (attributes g3 !! "position") eqn:E3; try contradiction.
    + destruct Hp, Hp'. split; congruence.
    + congruence.
Qed.

(** The visit of one node, case by case. *)
Lemma cleanNode_visit n w :
  match isMesh n, geometry n with
  | true, Some ref =>
      match geometries w !! ref with
      | Some g =>
          cleanNode cbs n w =
          {| geometries := <[ref := (cleanGeometry cbs g).1]> (geometries w);
             materials := materials w;
             events := events w ++ (cleanGeometry cbs g).2 |}
      | None => cleanNode cbs n w = w
      end
  | _, _ => cleanNode cbs n w = w
  end.
Proof.
  unfold cleanNode. destruct (isMesh n); [|reflexivity].
  destruct (geometry n) as [ref|]; [|reflexivity].
  destruct (geometries w !! ref) as [g|]; [|reflexivity].
  destruct (cleanGeometry cbs g); reflexivity.
Qed.

Lemma cleanNode_materials n w : materials (cleanNode cbs n w) = materials w.
Proof.
  pose proof (cleanNode_visit n w) as H.
  destruct (isMesh n), (geometry n) as [ref|]; try (rewrite H; reflexivity).
  destruct (geometries w !! ref); rewrite H; reflexivity.
Qed.

Lemma cleanNode_geometry n w ref :
  match geometries w !! ref with
  | Some g =>
      exists g', geometries (cleanNode cbs n w) !! ref = Some g'
                 /\ geometryFrame g g'
  | None => geometries (cleanNode cbs n w) !! ref = None
  end.
Proof.
  pose proof (cleanNode_visit n w) as H.
  assert (Hsame : cleanNode cbs n w = w ->
            match geometries w !! ref with
            | Some g =>
                exists g', geometries (cleanNode cbs n w) !! ref = Some g'
                           /\ geometryFrame g g'
            | None => geometries (cleanNode cbs n w) !! ref = None
            end).
  { intros ->. destruct (geometries w !! ref) as [g|]; [|reflexivity].
    exists g. split; [reflexivity | apply geometryFrame_refl]. }
  destruct (isMesh n), (geometry n) as [r|]; try (apply Hsame; exact H).
  destruct (geometries w !! r) as [g0|] eqn:Hr; [|apply Hsame; exact H].
  rewrite H. simpl. destruct (decide (r = ref)) as [->|Hne].
  - rewrite Hr, lookup_insert_eq. eexists. split; [reflexivity|].
    apply cleanGeometry_frame.
  - rewrite lookup_insert_ne by exact Hne.
    destruct (geometries w !! ref) as [g|]; [|reflexivity].
    exists g. split; [reflexivity | apply geometryFrame_refl].
Qed.

Lemma cleanNode_untouched n w ref :
  (isMesh n = true -> geometry n <> Some ref) ->
  geometries (cleanNode cbs n w) !! ref = geometries w !! ref.
Proof.
  intros Hn. pose proof (cleanNode_visit n w) as H.
  destruct (isMesh n), (geometry n) as [r|]; try (rewrite H; reflexivity).
  destruct (geometries w !! r) as [g0|] eqn:Hr; rewrite H; [|reflexivity].
  simpl. apply lookup_insert_ne. intros ->. apply Hn; reflexivity.
Qed.

Lemma cleanNode_scanLength m w n :
  scanLength (cleanNode cbs m w) n = scanLength w n.
Proof.
  unfold scanLength, positionOf. destruct (isMesh n); [|reflexivity].
  destruct (geometry n) as [ref|]; [|reflexivity]. simpl.
  pose proof (cleanNode_geometry m w ref) as H.
  destruct (geometries w !! ref) as [g|]; simpl.
  - destruct H as (g' & -> & _ & _ & Hp). simpl.
    destruct (attributes g !! "position") as [p|] eqn:E,
             (attributes g' !! "position") as [p'|] eqn:E'; try contradiction.
    + simpl. f_equal. apply Hp.
    + reflexivity.
  - rewrite H. reflexivity.
Qed.

End TraversalFacts.

Section TraversalClaims.

Variable cbs : BufferGeometry -> Completion (option Sphere).

Lemma cleanNode_events n w :
  (exists reads,
      length (inspected (events (cleanNode cbs n w))) =
        length (inspected (events w)) + reads
      /\ default 0 (scanLength w n) <= reads <= 2 * default 0 (scanLength w n))
  /\ occurrences CallComputeBoundingSphere (events (cleanNode cbs n w)) =
       occurrences CallComputeBoundingSphere (events w)
       + length (option_list (scanLength w n)).
Proof.
  pose proof (cleanNode_visit cbs n w) as H.
  unfold scanLength, positionOf.
  assert (Hsame : cleanNode cbs n w = w ->
    (exists reads,
        length (inspected (events (cleanNode cbs n w))) =
          length (inspected (events w)) + reads
        /\ 0 <= reads <= 2 * 0)
    /\ occurrences CallComputeBoundingSphere (events (cleanNode cbs n w)) =
         occurrences CallComputeBoundingSphere (events w) + 0).
  { intros ->. split; [exists 0|]; lia. }
  destruct (isMesh n); [|exact (Hsame H)].
  destruct (geometry n) as [ref|]; [|exact (Hsame H)].
  simpl. destruct (geometries w !! ref) as [g|]; simpl; [|exact (Hsame H)].
  rewrite H. simpl. rewrite inspected_app, length_app, occurrences_app.
  destruct (attributes g !! "position") as [p|] eqn:Hp; simpl.
  - destruct (cleanGeometry_trace cbs g p Hp) as [-> ->].
    split; [|reflexivity]. eexists. split; [reflexivity|].
    apply inspected_scanEvents_length.
  - rewrite (cleanGeometry_none cbs g Hp). simpl.
    split; [exists 0; lia | reflexivity].
Qed.

Lemma visitAll_scanLength ns : forall w n,
  scanLength (visitAll cbs ns w) n = scanLength w n.
Proof.
  induction ns as [|m ns IH]; intros w n; simpl; [reflexivity|].
  unfold visitAll in *. simpl. rewrite IH. apply cleanNode_scanLength.
Qed.

Lemma visitAll_events ns : forall w,
  (exists reads,
      length (inspected (events (visitAll cbs ns w))) =
        length (inspected (events w)) + reads
      /\ sum_list_with (fun n => default 0 (scanLength w n)) ns <= reads
         <= 2 * sum_list_with (fun n => default 0 (scanLength w n)) ns)
  /\ occurrences CallComputeBoundingSphere (events (visitAll cbs ns w)) =
       occurrences CallComputeBoundingSphere (events w)
       + length (omap (scanLength w) ns).
Proof.
  induction ns as [|m ns IH]; intros w.
  - simpl. split; [exists 0; simpl; lia | lia].
  - change (visitAll cbs (m :: ns) w) with (visitAll cbs ns (cleanNode cbs m w)).
    destruct (IH (cleanNode cbs m w)) as [(r2 & Hr2 & Hb2) Ho].
    destruct (cleanNode_events m w) as [(r1 & Hr1 & Hb1) Ho'].
    assert (Hsum : sum_list_with
                     (fun n => default 0 (scanLength (cleanNode cbs m w) n)) ns =
                   sum_list_with (fun n => default 0 (scanLength w n)) ns).
    { clear. induction ns as [|n ns IHn]; simpl; [reflexivity|].
      rewrite IHn, cleanNode_scanLength. reflexivity. }
    assert (Homap : omap (scanLength (cleanNode cbs m w)) ns =
                    omap (scanLength w) ns).
    { apply list_omap_ext. apply Forall2_same_length_lookup.
      split; [reflexivity|]. intros i x y Hx Hy. rewrite Hx in Hy.
      injection Hy as <-. apply cleanNode_scanLength. }
    rewrite Hsum in Hb2. rewrite Homap in Ho. split.
    + exists (r1 + r2). simpl. split; lia.
    + rewrite Ho, Ho'. simpl.
      destruct (scanLength w m); simpl;
        change (list_omap _ _ (scanLength w) ns) with (omap (scanLength w) ns);
        lia.
Qed.

Lemma visitAll_materials ns : forall w, materials (visitAll cbs ns w) = materials w.
Proof.
  induction ns as [|m ns IH]; intros w; [reflexivity|].
  unfold visitAll in *. simpl. rewrite IH. apply cleanNode_materials.
Qed.

Lemma visitAll_geometry ns ref : forall w,
  match geometries w !! ref with
  | Some g =>
      exists g', geometries (visitAll cbs ns w) !! ref = Some g'
                 /\ geometryFrame g g'
  | None => geometries (visitAll cbs ns w) !! ref = None
  end.
Proof.
  induction ns as [|m ns IH]; intros w.
  - simpl. destruct (geometries w !! ref) as [g|]; [|reflexivity].
    exists g. split; [reflexivity | apply geometryFrame_refl].
  - unfold visitAll in *. simpl fold_left.
    pose proof (cleanNode_geometry cbs m w ref) as H1.
    pose proof (IH (cleanNode cbs m w)) as H2.
    destruct (geometries w !! ref) as [g|].
    + destruct H1 as (g1 & Hg1 & Hf1). rewrite Hg1 in H2.
      destruct H2 as (g2 & Hg2 & Hf2). exists g2. split; [exact Hg2|].
      exact (geometryFrame_trans g g1 g2 Hf1 Hf2).
    + rewrite H1 in H2. exact H2.
Qed.

Lemma visitAll_untouched ns ref : forall w,
  (forall n, n ∈ ns -> isMesh n = true -> geometry n <> Some ref) ->
  geometries (visitAll cbs ns w) !! ref = geometries w !! ref.
Proof.
  induction ns as [|m ns IH]; intros w Hns; [reflexivity|].
  unfold visitAll in *. simpl. rewrite IH.
  - apply cleanNode_untouched. apply Hns. apply elem_of_cons. left. reflexivity.
  - intros n Hn. apply Hns. apply elem_of_cons. right. exact Hn.
Qed.

(** C5 (amended). The loop of lines 27-32 ends on every array: on an array
    of [n] elements its body runs for the indices [0, 1, ..., n - 1], in this
    order and once each, and the test then fails; an iteration evaluates
    [array[i]] once if the element is [NaN] and twice otherwise.  One run of
    the callback on a geometry with positions asks the library once, and
    uses the answer.  This work is done once for every mesh that [traverse]
    visits and whose geometry has positions, so a geometry that [k] meshes
    share is scanned [k] times and its sphere is computed [k] times: over a
    traversal the library calls number the visited meshes with positions,
    and the array reads lie between once and twice the sum, over these
    meshes, of their array lengths. *)
Theorem cleaning_scans_once_per_mesh :
  (forall a,
      let start := (0, {| arr := a; needsFix := false; trace := [] |}) in
      (forall k, k <= length a -> exists st, scanSteps k start = Some (k, st))
      /\ scanSteps (length a) start = Some (length a, scanArray a)
      /\ scanStep (length a, scanArray a) = None
      /\ inspected (trace (scanArray a)) =
           flat_map (fun i => inspected (readsAt a i)) (seq 0 (length a)))
  /\ (forall g position,
        attributes g !! "position" = Some position ->
        let scanned := setAttribute g "position" (fixPosition position).1 in
        occurrences CallComputeBoundingSphere (cleanGeometry cbs g).2 = 1
        /\ (forall cbs', cbs' scanned = cbs scanned ->
                         cleanGeometry cbs' g = cleanGeometry cbs g)
        /\ (forall bs, cbs scanned = Returned bs -> sphereInvalid bs = false ->
                       boundingSphere (cleanGeometry cbs g).1 = bs))
  /\ (forall o w,
        let w' := traverse (cleanNode cbs) o w in
        occurrences CallComputeBoundingSphere (events w') =
          occurrences CallComputeBoundingSphere (events w)
          + length (omap (scanLength w) (nodes o))
        /\ exists reads,
             length (inspected (events w')) =
               length (inspected (events w)) + reads
             /\ sum_list_with (fun n => default 0 (scanLength w n)) (nodes o)
                <= reads
                <= 2 * sum_list_with (fun n => default 0 (scanLength w n))
                                     (nodes o)).
Proof.
  split; [|split].
  - intros a start. subst start. split; [|split; [|split]].
    + intros k Hk.
      destruct (scanSteps_prefix k 0 {| arr := a; needsFix := false; trace := [] |})
        as (st & Hst & _); [simpl; lia|]. exists st. exact Hst.
    + rewrite (scanSteps_run (length a) 0) by reflexivity. reflexivity.
    + unfold scanStep. simpl. rewrite scanArray_closed. simpl.
      rewrite length_fmap. apply decide_False. lia.
    + rewrite scanArray_closed. simpl. apply (inspected_scanEvents a []).
  - intros g position Hp scanned. split; [|split].
    + apply (cleanGeometry_trace cbs g position Hp).
    + intros cbs' Hsame. unfold cleanGeometry. rewrite Hp.
      rewrite (surjective_pairing (fixPosition position)). fold scanned.
      unfold tryComputeBoundingSphere. rewrite Hsame. reflexivity.
    + intros bs Hbs Hvalid. rewrite (cleanGeometry_fst cbs g position Hp).
      fold scanned. rewrite Hbs. simpl.
      destruct bs as [s|]; [|discriminate]. simpl in Hvalid. rewrite Hvalid.
      reflexivity.
  - intros o w. simpl. rewrite traverse_nodes.
    destruct (visitAll_events (nodes o) w) as [Hreads Hcalls].
    split; [exact Hcalls | exact Hreads].
Qed.

End TraversalClaims.

(** ** Claims about the components *)

(** C3 (amended). [Computers] draws the placeholder exactly when
    [useCleanModel] returns [null], and that needs [useGLTF] to return: the
    model is loaded and the effect has not yet stored a cleaned scene.  Then
    [Computers] returns a [FallbackComputer] element, drawn as a group with
    two box meshes with standard materials and no [primitive].  While the
    model is loading [Computers] suspends and the [Suspense] of
    [ComputersCanvas] shows [CanvasLoader]; when loading failed [Computers]
    throws; in both cases no placeholder is drawn.  Once the hook returns a
    scene, [Computers] draws one [primitive] showing that scene and no part
    of the placeholder. *)
Theorem fallback_only_when_hook_returns_null (mobile : bool)
  (loader : string -> GltfStatus) (st : option Object3D) (canvas : CanvasState) :
  match loader "/desktop_pc/scene.gltf" with
  | GltfPending =>
      useCleanModel loader "/desktop_pc/scene.gltf" st = Suspends
      /\ Computers mobile loader st = Suspends
      /\ exists tree,
           draw loader st (ComputersCanvas canvas) = Returns tree
           /\ map kidsOf (findTag "Suspense" tree) = [[Elem "CanvasLoader" [] []]]
           /\ findTag "group" tree = []
           /\ findTag "boxGeometry" tree = []
           /\ findTag "primitive" tree = []
  | GltfRejected =>
      useCleanModel loader "/desktop_pc/scene.gltf" st = Throws
      /\ Computers mobile loader st = Throws
      /\ draw loader st (ComputersCanvas canvas) = Throws
  | GltfLoaded _ =>
      useCleanModel loader "/desktop_pc/scene.gltf" st = Returns st
      /\ match st with
         | None =>
             Computers mobile loader st =
               Returns (Elem "FallbackComputer" [("isMobile", PBool mobile)] [])
             /\ exists tree,
                  renderComputers mobile loader st = Returns tree
                  /\ tree = FallbackComputer mobile
                  /\ findTag "primitive" tree = []
                  /\ map (fun m => map tagOf (kidsOf m)) (findTag "mesh" tree) =
                       [ ["boxGeometry"; "meshStandardMaterial"];
                         ["boxGeometry"; "meshStandardMaterial"] ]
         | Some scene =>
             exists tree,
               Computers mobile loader st = Returns tree
               /\ renderComputers mobile loader st = Returns tree
               /\ map (prop "object") (findTag "primitive" tree) =
                    [Some (PObject scene)]
               /\ findTag "FallbackComputer" tree = []
               /\ findTag "group" tree = []
               /\ findTag "boxGeometry" tree = []
               /\ findTag "meshStandardMaterial" tree = []
         end
  end
  /\ initialCleanScene = None
  /\ (forall cbs scene w,
        (cleanModelEffect cbs (Some scene) w st).2 = Some scene
        /\ (cleanModelEffect cbs None w st).2 = st).
Proof.
  split; [|split; [reflexivity|]].
  - unfold draw, ComputersCanvas, renderComputers, Computers, useCleanModel,
      useGLTF, modelUrl.
    destruct (loader "/desktop_pc/scene.gltf") as [| |gltfScene].
    + split; [reflexivity|]. split; [reflexivity|].
      eexists. split; [reflexivity|]. repeat split; reflexivity.
    + repeat split; reflexivity.
    + split; [reflexivity|]. destruct st as [scene|].
      * destruct mobile; eexists; repeat split; reflexivity.
      * split; [reflexivity|].
        destruct mobile; eexists; repeat split; reflexivity.
  - intros cbs scene w. simpl. rewrite clone_id. split; reflexivity.
Qed.

(** C3 as stated fails: while the model is loading, or when loading failed,
    the cleaned scene is unavailable, yet [Computers] returns no
    [FallbackComputer] element; the canvas shows [CanvasLoader] in the first
    case and nothing in the second. *)
Lemma no_fallback_while_loading :
  Computers true (fun _ => GltfPending) None <>
    Returns (Elem "FallbackComputer" [("isMobile", PBool true)] [])
  /\ Computers true (fun _ => GltfRejected) None <>
       Returns (Elem "FallbackComputer" [("isMobile", PBool true)] [])
  /\ (exists tree,
        draw (fun _ => GltfPending) None (ComputersCanvas initialCanvasState) =
          Returns tree
        /\ findTag "CanvasLoader" tree = [Elem "CanvasLoader" [] []]
        /\ findTag "group" tree = []
        /\ findTag "boxGeometry" tree = [])
  /\ draw (fun _ => GltfRejected) None (ComputersCanvas initialCanvasState) =
       Throws.
Proof.
  split; [discriminate|]. split; [discriminate|]. split; [|reflexivity].
  eexists. split; [reflexivity|]. repeat split; reflexivity.
Qed.

(** C4. The [primitive] gets scale 0.3 and position [0, -3, -2.2] when
    [isMobile] is true and scale 0.6 and position [0, -3.7, -1.4] when it is
    false; [ComputersCanvas] hands its [isMobile] state to [Computers]; the
    mount effect sets that state to whether ["(max-width: 500px)"] matches
    and listens to that query; and after any series of change events the
    state is the [matches] of the last one. *)
Theorem mobile_layout_by_media_query :
  (forall (mobile : bool) scene loader gltfScene,
      loader "/desktop_pc/scene.gltf" = GltfLoaded gltfScene ->
      exists tree,
        renderComputers mobile loader (Some scene) = Returns tree
        /\ let primitives := findTag "primitive" tree in
           map (prop "scale") primitives =
             [Some (PNum (if mobile then 0.3 else 0.6)%Q)]
           /\ map (prop "position") primitives =
                [Some (if mobile
                       then PList [PNum 0%Q; PNum (-3)%Q; PNum (-2.2)%Q]
                       else PList [PNum 0%Q; PNum (-3.7)%Q; PNum (-1.4)%Q])])
  /\ (forall st,
        findTag "Computers" (ComputersCanvas st) =
          [Elem "Computers" [("isMobile", PBool (isMobile st))] []])
  /\ (forall st matchMedia,
        canvasStep st (Mount matchMedia) =
          {| isMobile := matchMedia "(max-width: 500px)";
             listening := Some "(max-width: 500px)" |})
  /\ (forall matchMedia changes,
        let st := fold_left canvasStep
                    (Mount matchMedia :: map (Change mobileQuery) changes)
                    initialCanvasState in
        isMobile st = default (matchMedia mobileQuery) (last changes)
        /\ listening st = Some mobileQuery).
Proof.
  split; [|split; [|split]].
  - intros mobile scene loader gltfScene Hloaded.
    unfold renderComputers, Computers, useCleanModel, useGLTF, modelUrl.
    rewrite Hloaded. destruct mobile; eexists; repeat split; reflexivity.
  - intros st. reflexivity.
  - intros st matchMedia. reflexivity.
  - intros matchMedia changes. simpl.
    generalize (matchMedia mobileQuery). intros b.
    revert b. induction changes as [|m changes IH]; intros b; simpl.
    + split; reflexivity.
    + unfold handleMediaQueryChange. simpl.
      destruct (IH m) as [-> ->]. split; [|reflexivity].
      destruct changes as [|m' changes]; [reflexivity|].
      change (last (m :: m' :: changes)) with (last (m' :: changes)).
      destruct (last (m' :: changes)) eqn:E; [reflexivity|].
      apply last_None in E. discriminate.
Qed.

(** ** The claims at concrete inputs *)

Example scan_example :
  scanArray [ofZ 1; S754_nan; S754_infinity true; S754_zero true] =
  {| arr := [ofZ 1; zero; zero; S754_zero true];
     needsFix := true;
     trace := [Inspect 0; Inspect 0; Inspect 1; Store 1;
               Inspect 2; Inspect 2; Store 2; Inspect 3; Inspect 3] |}.
Proof. vm_compute. reflexivity. Qed.

(** A geometry without positions is skipped; a clean one only gets its
    sphere. *)
Example skipped_and_clean_example :
  cleanGeometry Sample.boxCentredSphere Sample.bare = (Sample.bare, [])
  /\ (cleanGeometry Sample.boxCentredSphere Sample.cleanTriangle).2 =
       flat_map (fun i => [Inspect i; Inspect i]) (seq 0 9)
       ++ [CallComputeBoundingSphere]
  /\ attributes (cleanGeometry Sample.boxCentredSphere Sample.cleanTriangle).1 =
       attributes Sample.cleanTriangle.
Proof. vm_compute. repeat split; reflexivity. Qed.

(** C5 as stated fails.  Two meshes of [Sample.scene] share geometry 1
    and a third has geometry 2: the library is called three times for two
    geometries, and the 15 coordinates of the two arrays are read more often
    than one pass over each array can read them. *)
Lemma cleaning_repeats_on_shared_geometry :
  let w' := traverse (cleanNode Sample.boxCentredSphere) Sample.scene Sample.world in
  meshGeometries Sample.world Sample.scene = [1%positive; 2%positive]
  /\ meshElements Sample.world Sample.scene = 15
  /\ occurrences CallComputeBoundingSphere (events w') = 3
  /\ occurrences CallComputeBoundingSphere (events w') <>
       length (meshGeometries Sample.world Sample.scene)
  /\ ~ (length (inspected (events w'))
          <= 2 * meshElements Sample.world Sample.scene).
Proof.
  vm_compute. repeat split; try reflexivity; [discriminate | lia].
Qed.

Lemma clean_positions_finite_witness :
  attributes Sample.dirtyTriangle !! "position" = Some Sample.dirtyPosition
  /\ exists position',
       attributes (cleanGeometry Sample.boxCentredSphere Sample.dirtyTriangle).1
         !! "position" = Some position'
       /\ length (array position') = length (array Sample.dirtyPosition)
       /\ Forall (fun y => isFinite y = true) (array position')
       /\ forall i x, array Sample.dirtyPosition !! i = Some x ->
            array position' !! i = Some (if isFinite x then x else zero).
Proof.
  split; [reflexivity|].
  apply (clean_positions_finite Sample.boxCentredSphere Sample.dirtyTriangle
           Sample.dirtyPosition).
  reflexivity.
Defined.

Lemma bounding_sphere_valid_witness :
  attributes Sample.coincident !! "position" = Some Sample.coincidentPosition
  /\ boundingSphere (cleanGeometry Sample.alwaysThrows Sample.coincident).1 =
       Some defaultSphere.
Proof.
  split; [reflexivity|].
  exact (proj2 (proj2 (bounding_sphere_valid Sample.alwaysThrows Sample.coincident
                         Sample.coincidentPosition eq_refl))).
Defined.

Lemma zero_radius_replaced_witness :
  attributes Sample.coincident !! "position" = Some Sample.coincidentPosition
  /\ Sample.boxCentredSphere Sample.coincident =
       Returned (Some (mkSphere (mkVector3 (ofZ 1) (ofZ 2) (ofZ 3)) zero))
  /\ (cleanGeometry Sample.boxCentredSphere Sample.coincident).1 =
       setBoundingSphere Sample.coincident (Some defaultSphere).
Proof.
  split; [reflexivity|]. split; [vm_compute; reflexivity|].
  apply (zero_radius_replaced Sample.boxCentredSphere Sample.coincident
           Sample.coincidentPosition
           (mkSphere (mkVector3 (ofZ 1) (ofZ 2) (ofZ 3)) zero)).
  - reflexivity.
  - repeat constructor.
  - vm_compute; reflexivity.
  - reflexivity.
Defined.

Lemma cleaning_deterministic_witness :
  array Sample.dirtyPosition =
    [ofZ 1; Sample.nan; zero; Sample.inf; ofZ 2; zero; zero; zero; Sample.ninf]
  /\ exists q1 q2,
       attributes (cleanGeometry Sample.boxCentredSphere Sample.dirtyTriangle).1
         !! "position" = Some q1
       /\ attributes (cleanGeometry Sample.boxCentredSphere
                        Sample.dirtyTriangleAgain).1 !! "position" = Some q2
       /\ array q1 = array q2
       /\ boundingSphere
            (cleanGeometry Sample.boxCentredSphere Sample.dirtyTriangle).1 =
          boundingSphere
            (cleanGeometry Sample.boxCentredSphere Sample.dirtyTriangleAgain).1
       /\ (cleanGeometry Sample.boxCentredSphere Sample.dirtyTriangle).2 =
          (cleanGeometry Sample.boxCentredSphere Sample.dirtyTriangleAgain).2.
Proof.
  split; [reflexivity|].
  apply (cleaning_deterministic Sample.boxCentredSphere Sample.boxCentredSphere
           Sample.dirtyTriangle Sample.dirtyTriangleAgain
           Sample.dirtyPosition
           {| array := array Sample.dirtyPosition;
              itemSize := 3; needsUpdate := true |}).
  - reflexivity.
  - reflexivity.
  - reflexivity.
  - vm_compute; reflexivity.
Defined.

Lemma scan_idempotent_witness :
  arr (scanArray [ofZ 1; S754_zero true; ofZ 2]) = [ofZ 1; S754_zero true; ofZ 2]
  /\ needsFix (scanArray [ofZ 1; S754_zero true; ofZ 2]) = false.
Proof.
  apply (proj1 (scan_idempotent [ofZ 1; S754_zero true; ofZ 2])).
  repeat constructor.
Defined.

(** * Further properties *)

(** ** The writes of the scan *)

Lemma stored_app t1 t2 : stored (t1 ++ t2) = stored t1 ++ stored t2.
Proof. apply omap_app. Qed.

Lemma stored_scanEvents_elem l : forall i j,
  j ∈ stored (scanEvents i l) <->
  i <= j /\ exists x, l !! (j - i) = Some x /\ isFinite x = false.
Proof.
  induction l as [|x l IH]; intros i j; simpl.
  - split; [intros H; by apply elem_of_nil in H | intros (_ & y & Hy & _); discriminate].
  - rewrite stored_app, elem_of_app, IH.
    assert (Hhead : j ∈ stored (elementEvents i x)
                    <-> j = i /\ isFinite x = false).
    { unfold elementEvents, readsOf. rewrite isBad_not_finite.
      destruct (isNaN x), (isFinite x); simpl;
        rewrite ?list_elem_of_singleton;
        try tauto;
        (split; [intros H; by apply elem_of_nil in H | intros [_ H]; discriminate]). }
    rewrite Hhead. split.
    + intros [[-> Hx] | (Hle & y & Hy & Hfin)].
      * split; [lia|]. exists x. rewrite Nat.sub_diag. auto.
      * split; [lia|]. exists y. replace (j - i) with (S (j - S i)) by lia. auto.
    + intros (Hle & y & Hy & Hfin). destruct (decide (j = i)) as [->|Hne].
      * left. rewrite Nat.sub_diag in Hy. injection Hy as ->. auto.
      * right. split; [lia|]. exists y.
        replace (j - i) with (S (j - S i)) in Hy by lia. auto.
Qed.

Lemma stored_scanEvents_NoDup l : forall i, NoDup (stored (scanEvents i l)).
Proof.
  induction l as [|x l IH]; intros i; simpl; [constructor|].
  rewrite stored_app. unfold elementEvents, readsOf.
  destruct (isNaN x), (isBad x); simpl; try apply IH;
    (constructor; [rewrite stored_scanEvents_elem; lia | apply IH]).
Qed.

(** X1. The scan executes [array[i] = 0] for exactly the indices whose
    element is [NaN] or an infinity, once for each; afterwards these slots
    hold [0] and every other slot holds what it held before. *)
Theorem scan_writes_only_bad_slots (a : list number) :
  NoDup (stored (trace (scanArray a)))
  /\ (forall i, i ∈ stored (trace (scanArray a)) <->
                exists x, a !! i = Some x /\ isFinite x = false)
  /\ (forall i, i ∈ stored (trace (scanArray a)) ->
                arr (scanArray a) !! i = Some zero)
  /\ (forall i, i ∉ stored (trace (scanArray a)) ->
                arr (scanArray a) !! i = a !! i).
Proof.
  rewrite scanArray_closed. simpl.
  assert (Hmem : forall i, i ∈ stored (scanEvents 0 a) <->
                           exists x, a !! i = Some x /\ isFinite x = false).
  { intros i. rewrite stored_scanEvents_elem, Nat.sub_0_r.
    split; [intros [_ H]; exact H | intros H; split; [lia | exact H]]. }
  split; [apply stored_scanEvents_NoDup|]. split; [exact Hmem|]. split.
  - intros i Hi. apply Hmem in Hi as (x & Hx & Hfin).
    rewrite list_lookup_fmap, Hx. simpl. unfold cleaned.
    rewrite isBad_not_finite, Hfin. reflexivity.
  - intros i Hi. rewrite list_lookup_fmap.
    destruct (a !! i) as [x|] eqn:Hx; [|reflexivity]. simpl.
    unfold cleaned. rewrite isBad_not_finite.
    destruct (isFinite x) eqn:Hfin; [reflexivity|].
    exfalso. apply Hi, Hmem. exists x. auto.
Qed.

(** ** What the library is asked and what the pass reports *)

Lemma fixPosition_finite p :
  Forall (fun x => isFinite x = true) (array (fixPosition p).1).
Proof. rewrite fixPosition_closed. simpl. apply Forall_cleaned. Qed.

(** X2. The library is only ever called on a geometry whose coordinates have
    been cleaned: two library behaviours that agree on every geometry with a
    finite position array give the same result and the same trace. *)
Theorem library_sees_finite_positions
  (cbs1 cbs2 : BufferGeometry -> Completion (option Sphere)) (g : BufferGeometry) :
  (forall g' p',
      attributes g' !! "position" = Some p' ->
      Forall (fun x => isFinite x = true) (array p') ->
      cbs1 g' = cbs2 g') ->
  cleanGeometry cbs1 g = cleanGeometry cbs2 g.
Proof.
  intros Hagree. unfold cleanGeometry.
  destruct (attributes g !! "position") as [p|] eqn:Hp; [|reflexivity].
  pose proof (fixPosition_finite p) as Hfin.
  destruct (fixPosition p) as [p' t1]. simpl in Hfin.
  unfold tryComputeBoundingSphere.
  rewrite (Hagree (setAttribute g "position" p') p'); [reflexivity | | exact Hfin].
  simpl. apply lookup_insert_eq.
Qed.

Lemma radius_rejected_iff (r : number) :
  isNaN r || strictEq r zero = true <->
  r = S754_nan \/ r = S754_zero false \/ r = S754_zero true.
Proof.
  destruct r as [[|]|[|]| |[|] m e]; simpl; split; intros H;
    try discriminate H; try reflexivity; auto;
    destruct H as [H|[H|H]]; discriminate H.
Qed.

(** Membership in a list written out element by element. *)
Ltac not_listed H :=
  repeat (apply elem_of_cons in H as [H|H]; [discriminate H|]);
  apply elem_of_nil in H; exact H.

Ltac listed :=
  repeat first [ apply elem_of_cons; left; reflexivity
               | apply elem_of_cons; right ].

Section ErrorPath.

Variable cbs : BufferGeometry -> Completion (option Sphere).

(** X3. In one run of the callback on a geometry with positions (a geometry
    that several meshes share gets one run for each of them): the warning is
    printed exactly when the library call of that run throws; the run
    assigns a sphere of its own at most once; and when it does, the geometry
    ends the run with the default sphere. *)
Theorem warning_iff_thrown (g : BufferGeometry) (position : BufferAttribute) :
  attributes g !! "position" = Some position ->
  let scanned := setAttribute g "position" (fixPosition position).1 in
  let t := (cleanGeometry cbs g).2 in
  (ConsoleWarn msgFailed ∈ t <-> exists bs, cbs scanned = Thrown bs)
  /\ occurrences AssignBoundingSphere t <= 1
  /\ (AssignBoundingSphere ∈ t ->
      boundingSphere (cleanGeometry cbs g).1 = Some defaultSphere).
Proof.
  intros Hp scanned t. subst t.
  rewrite (cleanGeometry_fst cbs g position Hp). fold scanned.
  unfold cleanGeometry. rewrite Hp.
  rewrite (surjective_pairing (fixPosition position)). fold scanned.
  rewrite fixPosition_closed. simpl snd.
  unfold tryComputeBoundingSphere, forceBoundingSphere.
  assert (Hw : forall i l, ConsoleWarn msgFailed ∉ scanEvents i l)
    by (intros; apply scanEvents_no_other; discriminate).
  assert (Ha : forall i l, AssignBoundingSphere ∉ scanEvents i l)
    by (intros; apply scanEvents_no_other; discriminate).
  assert (Hc : forall i l, occurrences AssignBoundingSphere (scanEvents i l) = 0).
  { intros i l. revert i. induction l as [|x l IH]; intros i; simpl; [reflexivity|].
    rewrite occurrences_app, IH. unfold elementEvents, readsOf.
    destruct (isNaN x), (isBad x); reflexivity. }
  set (fixed := if existsb isBad (array position)
                then [ConsoleLog msgFixed; SetNeedsUpdate] else []).
  assert (Hfw : ConsoleWarn msgFailed ∉ fixed)
    by (subst fixed; destruct (existsb _ _); intros H; not_listed H).
  assert (Hfa : AssignBoundingSphere ∉ fixed)
    by (subst fixed; destruct (existsb _ _); intros H; not_listed H).
  assert (Hfc : occurrences AssignBoundingSphere fixed = 0)
    by (subst fixed; destruct (existsb _ _); reflexivity).
  destruct (cbs scanned) as [bs|bs] eqn:E; simpl.
  - destruct (sphereInvalid bs) eqn:Ei; simpl.
    + split; [|split].
      * rewrite !elem_of_app. split; [|intros [? ?]; discriminate].
        intros [[H|H]|H]; [by apply Hw in H | by apply Hfw in H |].
        exfalso. not_listed H.
      * rewrite !occurrences_app, Hc, Hfc. vm_compute. lia.
      * intros _. destruct bs as [s|]; simpl in *; [|reflexivity].
        rewrite Ei. reflexivity.
    + split; [|split].
      * rewrite !elem_of_app. split; [|intros [? ?]; discriminate].
        intros [[H|H]|H]; [by apply Hw in H | by apply Hfw in H |].
        exfalso. not_listed H.
      * rewrite !occurrences_app, Hc, Hfc. vm_compute. lia.
      * rewrite !elem_of_app. intros [[H|H]|H];
          [by apply Ha in H | by apply Hfa in H |].
        exfalso. not_listed H.
  - split; [|split].
    + split; [intros _; eauto|]. intros _. rewrite !elem_of_app. right.
      listed.
    + rewrite !occurrences_app, Hc, Hfc. vm_compute. lia.
    + reflexivity.
Qed.

(** X4. When the library returns a sphere, the pass keeps it unless its
    radius is [NaN], [+0] or [-0]; in particular an infinite or a negative
    radius is kept. *)
Theorem computed_sphere_kept_iff (g : BufferGeometry) (position : BufferAttribute)
  (s : Sphere) :
  attributes g !! "position" = Some position ->
  cbs (setAttribute g "position" (fixPosition position).1) = Returned (Some s) ->
  (boundingSphere (cleanGeometry cbs g).1 = Some s <->
   radius s <> S754_nan /\ radius s <> S754_zero false
   /\ radius s <> S754_zero true)
  /\ (forall sign m e, radius s = S754_finite sign m e ->
        boundingSphere (cleanGeometry cbs g).1 = Some s)
  /\ (forall sign, radius s = S754_infinity sign ->
        boundingSphere (cleanGeometry cbs g).1 = Some s).
Proof.
  intros Hp Hcbs. rewrite (cleanGeometry_fst cbs g position Hp), Hcbs. simpl.
  pose proof (radius_rejected_iff (radius s)) as Hrej.
  split; [|split].
  - destruct (isNaN (radius s) || strictEq (radius s) zero) eqn:E.
    + split.
      * intros H. injection H as H. exfalso.
        destruct (proj1 Hrej eq_refl) as [Hr|[Hr|Hr]];
          rewrite <- H in Hr; discriminate Hr.
      * intros (H1 & H2 & H3). exfalso.
        destruct (proj1 Hrej eq_refl) as [Hr|[Hr|Hr]]; contradiction.
    + split; [|reflexivity]. intros _.
      repeat split; intros Hr;
        (assert (false = true) as Habs by (apply Hrej; auto)); discriminate.
  - intros sign m e Hr. rewrite Hr. destruct sign; reflexivity.
  - intros sign Hr. rewrite Hr. destruct sign; reflexivity.
Qed.

End ErrorPath.

(** ** The scene after the effect *)

Lemma cleaned_idempotent (a : list number) : cleaned <$> (cleaned <$> a) = cleaned <$> a.
Proof. apply cleaned_id_finite, Forall_cleaned. Qed.

Lemma finalSphere_valid c : sphereInvalid (Some (finalSphere c)) = false.
Proof.
  destruct c as [[s|]|bs]; simpl; try reflexivity.
  destruct (isNaN (radius s) || strictEq (radius s) zero) eqn:E; simpl;
    [reflexivity | exact E].
Qed.

Section SceneFacts.

Variable cbs : BufferGeometry -> Completion (option Sphere).

Lemma cleanGeometry_positionArray g a :
  positionArray g = Some a ->
  positionArray (cleanGeometry cbs g).1 = Some (cleaned <$> a)
  /\ sphereInvalid (boundingSphere (cleanGeometry cbs g).1) = false.
Proof.
  unfold positionArray. intros Ha.
  destruct (attributes g !! "position") as [p|] eqn:Hp; [|discriminate].
  injection Ha as <-.
  rewrite (cleanGeometry_fst cbs g p Hp).
  cbn [attributes boundingSphere]. rewrite lookup_insert_eq, fixPosition_closed.
  split; [reflexivity | apply finalSphere_valid].
Qed.

Lemma cleanNode_cleanedAt m w ref a :
  cleanedAt w ref a -> cleanedAt (cleanNode cbs m w) ref a.
Proof.
  intros (g & Hg & Ha & Hs). pose proof (cleanNode_visit cbs m w) as H.
  destruct (isMesh m), (geometry m) as [r|];
    try (rewrite H; exists g; auto).
  destruct (geometries w !! r) as [g0|] eqn:Hr; rewrite H; [|exists g; auto].
  unfold cleanedAt. cbn [geometries].
  destruct (decide (r = ref)) as [->|Hne].
  - rewrite lookup_insert_eq. eexists. split; [reflexivity|].
    assert (g0 = g) as -> by congruence.
    destruct (cleanGeometry_positionArray g _ Ha) as [Ha' Hs'].
    rewrite Ha', cleaned_idempotent. auto.
  - rewrite lookup_insert_ne by exact Hne. exists g. auto.
Qed.

Lemma cleanNode_holdsPositions m w ref a :
  holdsPositions w ref a ->
  (holdsPositions (cleanNode cbs m w) ref a
   \/ cleanedAt (cleanNode cbs m w) ref a)
  /\ (isMesh m = true -> geometry m = Some ref ->
      cleanedAt (cleanNode cbs m w) ref a).
Proof.
  intros (g & Hg & Ha). pose proof (cleanNode_visit cbs m w) as H.
  assert (Hkeep : holdsPositions w ref a) by (exists g; auto).
  destruct (isMesh m), (geometry m) as [r|];
    try (rewrite H; split; [left; exact Hkeep | intros; discriminate]).
  destruct (geometries w !! r) as [g0|] eqn:Hr; rewrite H.
  - destruct (decide (r = ref)) as [->|Hne].
    + assert (g0 = g) as -> by congruence.
      assert (Hc : cleanedAt
                     {| geometries := <[ref:=(cleanGeometry cbs g).1]> (geometries w);
                        materials := materials w;
                        events := events w ++ (cleanGeometry cbs g).2 |} ref a).
      { unfold cleanedAt. cbn [geometries]. rewrite lookup_insert_eq.
        eexists. split; [reflexivity|].
        exact (cleanGeometry_positionArray g a Ha). }
      split; [right; exact Hc | intros _ _; exact Hc].
    + assert (Hk : holdsPositions
                     {| geometries := <[r:=(cleanGeometry cbs g0).1]> (geometries w);
                        materials := materials w;
                        events := events w ++ (cleanGeometry cbs g0).2 |} ref a).
      { unfold holdsPositions. cbn [geometries].
        rewrite lookup_insert_ne by exact Hne. exists g. auto. }
      split; [left; exact Hk | intros _ E; congruence].
  - split; [left; exact Hkeep | intros _ E; congruence].
Qed.

Lemma visitAll_cleanedAt ns ref a : forall w,
  cleanedAt w ref a -> cleanedAt (visitAll cbs ns w) ref a.
Proof.
  induction ns as [|m ns IH]; intros w Hc; [exact Hc|].
  unfold visitAll in *. simpl. apply IH, cleanNode_cleanedAt, Hc.
Qed.

Lemma visitAll_reaches ns ref a : forall w,
  holdsPositions w ref a \/ cleanedAt w ref a ->
  (exists n, n ∈ ns /\ isMesh n = true /\ geometry n = Some ref) ->
  cleanedAt (visitAll cbs ns w) ref a.
Proof.
  induction ns as [|m ns IH]; intros w Hw (n & Hn & Hmesh & Hgeo).
  - by apply elem_of_nil in Hn.
  - change (visitAll cbs (m :: ns) w) with (visitAll cbs ns (cleanNode cbs m w)).
    apply elem_of_cons in Hn as [->|Hn].
    + apply visitAll_cleanedAt. destruct Hw as [Hh|Hc].
      * apply (cleanNode_holdsPositions m w ref a Hh); assumption.
      * apply cleanNode_cleanedAt, Hc.
    + apply IH; [|exists n; auto]. destruct Hw as [Hh|Hc].
      * apply (cleanNode_holdsPositions m w ref a Hh).
      * right. apply cleanNode_cleanedAt, Hc.
Qed.

(** X5. After the effect has run on a loaded scene, every mesh of the scene
    whose geometry had positions has a geometry with the same number of
    coordinates, all finite, each one the original value if that was finite
    and [0] otherwise, and a bounding sphere whose radius is neither [NaN]
    nor [0]; this holds also when several meshes share the geometry. *)
Theorem scene_clean_after_effect (scene : Object3D) (w : World)
  (st : option Object3D) (n : Object3D) (ref : GeometryRef)
  (g : BufferGeometry) (position : BufferAttribute) :
  n ∈ nodes scene ->
  isMesh n = true ->
  geometry n = Some ref ->
  geometries w !! ref = Some g ->
  attributes g !! "position" = Some position ->
  exists g' position',
    geometries (cleanModelEffect cbs (Some scene) w st).1 !! ref = Some g'
    /\ attributes g' !! "position" = Some position'
    /\ length (array position') = length (array position)
    /\ Forall (fun y => isFinite y = true) (array position')
    /\ (forall i x, array position !! i = Some x ->
          array position' !! i = Some (if isFinite x then x else zero))
    /\ exists s, boundingSphere g' = Some s
                 /\ isNaN (radius s) = false
                 /\ strictEq (radius s) zero = false.
Proof.
  intros Hn Hmesh Hgeo Hg Hp. simpl. rewrite clone_id, traverse_nodes.
  fold (visitAll cbs (nodes scene) w).
  destruct (visitAll_reaches (nodes scene) ref (array position) w)
    as (g' & Hg' & Ha' & Hs').
  { left. exists g. split; [exact Hg|]. unfold positionArray. rewrite Hp. reflexivity. }
  { exists n. auto. }
  unfold positionArray in Ha'.
  destruct (attributes g' !! "position") as [p'|] eqn:Hp'; [|discriminate].
  injection Ha' as Ha'. exists g', p'.
  split; [exact Hg'|]. split; [exact Hp'|]. rewrite Ha'.
  split; [apply length_fmap|]. split; [apply Forall_cleaned|]. split.
  - intros i x Hx. rewrite list_lookup_fmap, Hx. simpl.
    unfold cleaned. rewrite isBad_not_finite. destruct (isFinite x); reflexivity.
  - destruct (boundingSphere g') as [s|]; [|discriminate].
    exists s. split; [reflexivity|]. apply orb_false_elim. exact Hs'.
Qed.

End SceneFacts.

(** ** Running the effect again *)

Lemma positionWrites_app t1 t2 :
  positionWrites (t1 ++ t2) = positionWrites t1 ++ positionWrites t2.
Proof. apply omap_app. Qed.

Lemma positionWrites_scanEvents_finite l : forall i,
  Forall (fun x => isFinite x = true) l -> positionWrites (scanEvents i l) = [].
Proof.
  induction l as [|x l IH]; intros i Hl; [reflexivity|].
  inversion Hl as [|? ? Hx Hl']; subst. simpl.
  rewrite positionWrites_app, (IH _ Hl'). unfold elementEvents, readsOf.
  rewrite isBad_not_finite, Hx. destruct (isNaN x); reflexivity.
Qed.

Lemma positionOf_ext w w' n :
  (forall ref, attributes <$> geometries w' !! ref =
               attributes <$> geometries w !! ref) ->
  positionOf w' n = positionOf w n.
Proof.
  intros H. unfold positionOf. destruct (isMesh n); [|reflexivity].
  destruct (geometry n) as [ref|]; [|reflexivity]. simpl.
  specialize (H ref).
  destruct (geometries w' !! ref) as [g'|], (geometries w !! ref) as [g|];
    simpl in *; try discriminate; [|reflexivity].
  injection H as ->. reflexivity.
Qed.

Section SecondRun.

Variable cbs : BufferGeometry -> Completion (option Sphere).

Lemma cleanGeometry_quiet g p :
  attributes g !! "position" = Some p ->
  Forall (fun x => isFinite x = true) (array p) ->
  attributes (cleanGeometry cbs g).1 = attributes g
  /\ positionWrites (cleanGeometry cbs g).2 = [].
Proof.
  intros Hp Hfin. split.
  - rewrite (cleanGeometry_fst cbs g p Hp). cbn [attributes].
    rewrite fixPosition_closed. cbn [fst].
    rewrite cleaned_id_finite, existsb_isBad_finite by exact Hfin.
    apply insert_id. rewrite Hp. destruct p; reflexivity.
  - unfold cleanGeometry. rewrite Hp, fixPosition_closed.
    rewrite existsb_isBad_finite by exact Hfin.
    unfold tryComputeBoundingSphere, forceBoundingSphere.
    match goal with |- context [cbs ?x] => destruct (cbs x) as [bs|bs] end; simpl.
    + destruct (sphereInvalid bs); simpl;
        rewrite !positionWrites_app, positionWrites_scanEvents_finite by exact Hfin;
        reflexivity.
    + rewrite !positionWrites_app, positionWrites_scanEvents_finite by exact Hfin.
      reflexivity.
Qed.

Lemma cleanNode_quiet m w :
  (forall p, positionOf w m = Some p ->
             Forall (fun x => isFinite x = true) (array p)) ->
  (forall ref, attributes <$> geometries (cleanNode cbs m w) !! ref =
               attributes <$> geometries w !! ref)
  /\ positionWrites (events (cleanNode cbs m w)) = positionWrites (events w).
Proof.
  intros Hfin. pose proof (cleanNode_visit cbs m w) as H.
  unfold positionOf in Hfin.
  destruct (isMesh m), (geometry m) as [r|];
    try (rewrite H; split; reflexivity).
  simpl in Hfin.
  destruct (geometries w !! r) as [g|] eqn:Hr; rewrite H;
    [|split; reflexivity].
  simpl in Hfin. cbn [geometries events].
  assert (Hq : attributes (cleanGeometry cbs g).1 = attributes g
               /\ positionWrites (cleanGeometry cbs g).2 = []).
  { destruct (attributes g !! "position") as [p|] eqn:Hp.
    - apply (cleanGeometry_quiet g p Hp), Hfin. reflexivity.
    - rewrite (cleanGeometry_none cbs g Hp). split; reflexivity. }
  destruct Hq as [Hattr Hev]. split.
  - intros ref. destruct (decide (r = ref)) as [->|Hne].
    + rewrite lookup_insert_eq, Hr. simpl. rewrite Hattr. reflexivity.
    + rewrite lookup_insert_ne by exact Hne. reflexivity.
  - rewrite positionWrites_app, Hev, app_nil_r. reflexivity.
Qed.

Lemma visitAll_quiet ns : forall w,
  (forall n, n ∈ ns -> forall p, positionOf w n = Some p ->
             Forall (fun x => isFinite x = true) (array p)) ->
  (forall ref, attributes <$> geometries (visitAll cbs ns w) !! ref =
               attributes <$> geometries w !! ref)
  /\ positionWrites (events (visitAll cbs ns w)) = positionWrites (events w).
Proof.
  induction ns as [|m ns IH]; intros w Hfin; [split; reflexivity|].
  change (visitAll cbs (m :: ns) w) with (visitAll cbs ns (cleanNode cbs m w)).
  destruct (cleanNode_quiet m w) as [Hattr Hev].
  { apply Hfin. apply elem_of_cons. left. reflexivity. }
  destruct (IH (cleanNode cbs m w)) as [Hattr' Hev'].
  { intros n Hn p. rewrite (positionOf_ext _ _ n Hattr).
    apply Hfin. apply elem_of_cons. right. exact Hn. }
  split.
  - intros ref. rewrite Hattr', Hattr. reflexivity.
  - rewrite Hev', Hev. reflexivity.
Qed.

Lemma visitAll_finite ns w n p :
  n ∈ ns ->
  positionOf (visitAll cbs ns w) n = Some p ->
  Forall (fun x => isFinite x = true) (array p).
Proof.
  intros Hn. unfold positionOf.
  destruct (isMesh n) eqn:Hmesh; [|discriminate].
  destruct (geometry n) as [ref|] eqn:Hgeo; [|discriminate]. simpl.
  destruct (geometries (visitAll cbs ns w) !! ref) as [g1|] eqn:Hg1;
    [|discriminate]. simpl. intros Hp1.
  pose proof (visitAll_geometry cbs ns ref w) as Hframe.
  destruct (geometries w !! ref) as [g|] eqn:Hg; [|congruence].
  destruct Hframe as (g' & Hg' & _ & _ & Hpos).
  assert (g' = g1) as -> by congruence.
  rewrite Hp1 in Hpos.
  destruct (attributes g !! "position") as [p0|] eqn:Hp0; [|contradiction].
  destruct (visitAll_reaches cbs ns ref (array p0) w) as (g2 & Hg2 & Ha2 & _).
  { left. exists g. split; [exact Hg|]. unfold positionArray. rewrite Hp0. reflexivity. }
  { exists n. auto. }
  assert (g2 = g1) as -> by congruence.
  unfold positionArray in Ha2. rewrite Hp1 in Ha2. injection Ha2 as ->.
  apply Forall_cleaned.
Qed.

End SecondRun.

(** X6. Running the effect a second time on the same scene, whatever the
    library then does, writes to no position attribute: every geometry keeps
    all its attributes, and no [array[i] = 0] and no [needsUpdate = true] is
    added to the trace. *)
Theorem second_run_writes_no_position
  (cbs cbs' : BufferGeometry -> Completion (option Sphere))
  (scene : Object3D) (w : World) (st st' : option Object3D) :
  let w1 := (cleanModelEffect cbs (Some scene) w st).1 in
  let w2 := (cleanModelEffect cbs' (Some scene) w1 st').1 in
  (forall ref, attributes <$> geometries w2 !! ref =
               attributes <$> geometries w1 !! ref)
  /\ positionWrites (events w2) = positionWrites (events w1).
Proof.
  simpl. rewrite clone_id, !traverse_nodes.
  fold (visitAll cbs (nodes scene) w).
  fold (visitAll cbs' (nodes scene) (visitAll cbs (nodes scene) w)).
  apply visitAll_quiet. intros n Hn p. apply visitAll_finite. exact Hn.
Qed.

(** ** The components *)

(** X7. Once the cleanup of the effect has run, no change event of any media
    query alters [isMobile]; and while the component is mounted, change
    events of other media queries do not alter it either. *)
Theorem no_update_after_unmount (st : CanvasState) (changes : list (string * bool)) :
  isMobile
    (fold_left canvasStep
       (Unmount :: map (fun c => Change (fst c) (snd c)) changes) st) =
  isMobile st
  /\ (Forall (fun c => fst c <> mobileQuery) changes ->
      forall matchMedia,
        isMobile
          (fold_left canvasStep
             (Mount matchMedia :: map (fun c => Change (fst c) (snd c)) changes)
             st) =
        matchMedia mobileQuery).
Proof.
  split.
  - simpl. generalize (isMobile st). intros b.
    induction changes as [|[q m] changes IH]; simpl; [reflexivity|].
    destruct (decide (None = Some q)); [discriminate | exact IH].
  - intros Hother matchMedia. simpl. generalize (matchMedia mobileQuery). intros b.
    induction Hother as [|[q m] changes Hq _ IH]; simpl; [reflexivity|].
    destruct (decide (Some mobileQuery = Some q)) as [E|_]; [|exact IH].
    injection E as E. simpl in Hq. congruence.
Qed.

(** X8. The placeholder stands where the model will: for the same [isMobile],
    the first box of [FallbackComputer] has the scale, position and rotation
    that [Computers] gives the [primitive] of the loaded model, and both
    components start with the same three lights. *)
Theorem placeholder_matches_model (mobile : bool) (scene : Object3D)
  (loader : string -> GltfStatus) (gltfScene : option Object3D) :
  loader "/desktop_pc/scene.gltf" = GltfLoaded gltfScene ->
  exists box base model prim,
    findTag "mesh" (FallbackComputer mobile) = [box; base]
    /\ Computers mobile loader (Some scene) = Returns model
    /\ findTag "primitive" model = [prim]
    /\ prop "scale" box = prop "scale" prim
    /\ prop "position" box = prop "position" prim
    /\ prop "rotation" box = prop "rotation" prim
    /\ take 3 (kidsOf (FallbackComputer mobile)) = take 3 (kidsOf model)
    /\ map tagOf (take 3 (kidsOf (FallbackComputer mobile))) =
       ["hemisphereLight"; "pointLight"; "spotLight"].
Proof.
  intros Hloaded. unfold Computers, useCleanModel, useGLTF, modelUrl.
  rewrite Hloaded.
  destruct mobile; do 4 eexists; repeat split; reflexivity.
Qed.

(** ** The further properties at concrete inputs *)

Lemma library_sees_finite_positions_witness :
  Probe.strict Sample.dirtyTriangle = Thrown None
  /\ cleanGeometry Sample.boxCentredSphere Sample.dirtyTriangle =
     cleanGeometry Probe.strict Sample.dirtyTriangle.
Proof.
  split; [reflexivity|].
  apply (library_sees_finite_positions Sample.boxCentredSphere Probe.strict
           Sample.dirtyTriangle).
  intros g' p' Hp' Hfin. unfold Probe.strict. rewrite Hp'.
  assert (forallb isFinite (array p') = true) as ->; [|reflexivity].
  apply forallb_forall. intros x Hx. apply list_elem_of_In in Hx.
  rewrite Forall_forall in Hfin. apply Hfin, Hx.
Defined.

Lemma warning_iff_thrown_witness :
  attributes Sample.coincident !! "position" = Some Sample.coincidentPosition
  /\ ConsoleWarn msgFailed ∈ (cleanGeometry Sample.alwaysThrows Sample.coincident).2.
Proof.
  split; [reflexivity|].
  apply (proj1 (warning_iff_thrown Sample.alwaysThrows Sample.coincident
                  Sample.coincidentPosition eq_refl)).
  eexists. reflexivity.
Defined.

Lemma computed_sphere_kept_iff_witness :
  attributes Sample.coincident !! "position" = Some Sample.coincidentPosition
  /\ boundingSphere (cleanGeometry Probe.unbounded Sample.coincident).1 =
     Some (mkSphere (mkVector3 zero zero zero) (S754_infinity false)).
Proof.
  split; [reflexivity|].
  apply (proj2 (proj2 (computed_sphere_kept_iff Probe.unbounded Sample.coincident
                         Sample.coincidentPosition
                         (mkSphere (mkVector3 zero zero zero) (S754_infinity false))
                         eq_refl eq_refl))
           false).
  reflexivity.
Defined.

Lemma scene_clean_after_effect_witness :
  exists g' position',
    geometries
      (cleanModelEffect Sample.boxCentredSphere (Some Sample.scene) Sample.world
         None).1 !! 1%positive = Some g'
    /\ attributes g' !! "position" = Some position'
    /\ length (array position') = length (array Sample.dirtyPosition)
    /\ Forall (fun y => isFinite y = true) (array position')
    /\ (forall i x, array Sample.dirtyPosition !! i = Some x ->
          array position' !! i = Some (if isFinite x then x else zero))
    /\ exists s, boundingSphere g' = Some s
                 /\ isNaN (radius s) = false
                 /\ strictEq (radius s) zero = false.
Proof.
  apply (scene_clean_after_effect Sample.boxCentredSphere Sample.scene
           Sample.world None
           (Sample.node "screen" true (Some 1%positive) [])
           1%positive Sample.dirtyTriangle Sample.dirtyPosition).
  - simpl. listed.
  - reflexivity.
  - reflexivity.
  - reflexivity.
  - reflexivity.
Defined.

Lemma placeholder_matches_model_witness :
  exists box base model prim,
    findTag "mesh" (FallbackComputer true) = [box; base]
    /\ Computers true (fun _ => GltfLoaded (Some Sample.scene))
                 (Some Sample.scene) = Returns model
    /\ findTag "primitive" model = [prim]
    /\ prop "scale" box = prop "scale" prim
    /\ prop "position" box = prop "position" prim
    /\ prop "rotation" box = prop "rotation" prim
    /\ take 3 (kidsOf (FallbackComputer true)) = take 3 (kidsOf model)
    /\ map tagOf (take 3 (kidsOf (FallbackComputer true))) =
       ["hemisphereLight"; "pointLight"; "spotLight"].
Proof.
  apply (placeholder_matches_model true Sample.scene
           (fun _ => GltfLoaded (Some Sample.scene)) (Some Sample.scene)).
  reflexivity.
Defined.

Lemma mobile_layout_by_media_query_witness :
  exists tree,
    renderComputers true (fun _ => GltfLoaded (Some Sample.scene))
                    (Some Sample.scene) = Returns tree
    /\ let primitives := findTag "primitive" tree in
       map (prop "scale") primitives = [Some (PNum 0.3%Q)]
       /\ map (prop "position") primitives =
            [Some (PList [PNum 0%Q; PNum (-3)%Q; PNum (-2.2)%Q])].
Proof.
  apply (proj1 mobile_layout_by_media_query true Sample.scene
           (fun _ => GltfLoaded (Some Sample.scene)) (Some Sample.scene)).
  reflexivity.
Defined.

(** ** The frame of the pass, with objects by reference *)

Module SharedFacts.
Import Shared.



Section Steps.

Variable cbs : BufferGeometry -> Completion (option Sphere).












(** The by-value pass is the pass by reference seen through [viewGeometry],
    for a geometry whose position attribute shares neither its object nor
    its array with another attribute or the index of the geometry. *)
Lemma tryComputeBoundingSphere_frame v :
  (tryComputeBoundingSphere cbs v).1 =
  setBoundingSphere v (boundingSphere (tryComputeBoundingSphere cbs v).1).
Proof. unfold tryComputeBoundingSphere. destruct (cbs v); reflexivity. Qed.

Lemma forceBoundingSphere_frame v :
  (forceBoundingSphere v).1 =
  setBoundingSphere v (boundingSphere (forceBoundingSphere v).1).
Proof.
  unfold forceBoundingSphere. destruct (sphereInvalid (boundingSphere v));
    [reflexivity | destruct v; reflexivity].
Qed.

Lemma cleanGeometryAt_view gref h g aref a data :
  geometryObjects h !! gref = Some g ->
  attributeRefs g !! "position" = Some aref ->
  attributeObjects h !! aref = Some a ->
  arrays h !! arrayRef a = Some data ->
  (forall k aref' a',
      (attributeRefs g !! k = Some aref' /\ k <> "position"
       \/ indexRef g = Some aref') ->
      attributeObjects h !! aref' = Some a' ->
      aref' <> aref /\ arrayRef a' <> arrayRef a) ->
  exists g',
    geometryObjects (cleanGeometryAt cbs gref h) !! gref = Some g'
    /\ viewGeometry (cleanGeometryAt cbs gref h) g' =
       (cleanGeometry cbs (viewGeometry h g)).1
    /\ heapEvents (cleanGeometryAt cbs gref h) =
       heapEvents h ++ (cleanGeometry cbs (viewGeometry h g)).2.
Proof.
  intros Hg Hp Ha Hd Hprivate.
  set (position := {| array := data; itemSize := attributeItemSize a;
                      needsUpdate := attributeNeedsUpdate a |}).
  assert (Hview : viewAttribute h aref = Some position).
  { unfold viewAttribute. rewrite Ha. simpl. rewrite Hd. reflexivity. }
  assert (Hpos : attributes (viewGeometry h g) !! "position" = Some position).
  { simpl. rewrite lookup_omap, Hp. exact Hview. }
  unfold cleanGeometryAt, cleanGeometry. rewrite Hg, Hp, Ha, Hd, Hpos.
  fold position. destruct (fixPosition position) as [position' t1] eqn:Hfix.
  assert (Hsize : itemSize position' = attributeItemSize a).
  { pose proof (f_equal fst Hfix) as E. rewrite fixPosition_closed in E.
    simpl in E. rewrite <- E. reflexivity. }
  set (h1 := {| arrays := <[arrayRef a:=array position']> (arrays h);
                attributeObjects := _; geometryObjects := geometryObjects h;
                heapMaterials := heapMaterials h;
                heapEvents := heapEvents h ++ t1 |}).
  assert (Hother : forall aref' a',
             attributeObjects h !! aref' = Some a' ->
             aref' <> aref -> arrayRef a' <> arrayRef a ->
             viewAttribute h1 aref' = viewAttribute h aref').
  { intros aref' a' Ha' Hne Hne'. unfold viewAttribute, h1. simpl.
    rewrite lookup_insert_ne by congruence. rewrite Ha'. simpl.
    rewrite lookup_insert_ne by congruence. reflexivity. }
  assert (Hnone : forall aref', attributeObjects h !! aref' = None ->
                                viewAttribute h1 aref' = viewAttribute h aref').
  { intros aref' Hn. unfold viewAttribute, h1. simpl.
    rewrite lookup_insert_ne by congruence. rewrite Hn. reflexivity. }
  assert (Hkeep : forall k aref',
             (attributeRefs g !! k = Some aref' /\ k <> "position"
              \/ indexRef g = Some aref') ->
             viewAttribute h1 aref' = viewAttribute h aref').
  { intros k aref' Hk.
    destruct (attributeObjects h !! aref') as [a'|] eqn:Ha'; [|exact (Hnone _ Ha')].
    destruct (Hprivate k aref' a' Hk Ha'). apply (Hother aref' a'); assumption. }
  assert (Hview1 : viewGeometry h1 g =
                   setAttribute (viewGeometry h g) "position" position').
  { unfold viewGeometry, setAttribute. cbn [attributes index boundingSphere].
    f_equal.
    - apply map_eq. intros k. rewrite lookup_omap.
      destruct (decide (k = "position")) as [->|Hk].
      + rewrite lookup_insert_eq, Hp. simpl. unfold viewAttribute, h1. simpl.
        rewrite !lookup_insert_eq. simpl. rewrite lookup_insert_eq.
        destruct position'. simpl in Hsize. rewrite Hsize. reflexivity.
      + rewrite lookup_insert_ne by congruence. rewrite lookup_omap.
        destruct (attributeRefs g !! k) as [aref'|] eqn:Hk'; [|reflexivity].
        simpl. apply (Hkeep k). auto.
    - destruct (indexRef g) as [iref|] eqn:Hi; [|reflexivity]. simpl.
      apply (Hkeep "index"). auto. }
  rewrite Hview1.
  set (g1 := setAttribute (viewGeometry h g) "position" position').
  pose proof (tryComputeBoundingSphere_frame g1) as Htry.
  destruct (tryComputeBoundingSphere cbs g1) as [v2 t2]. simpl in Htry.
  pose proof (forceBoundingSphere_frame v2) as Hforce.
  destruct (forceBoundingSphere v2) as [v3 t3]. simpl in Hforce.
  cbn [geometryObjects heapEvents arrays attributeObjects fst snd].
  rewrite lookup_insert_eq. eexists. split; [reflexivity|]. split.
  - rewrite Hforce, Htry. unfold setBoundingSphere. cbn [attributes index boundingSphere].
    unfold viewGeometry at 1. cbn [attributeRefs indexRef sphere].
    change (omap _ (attributeRefs g)) with (attributes (viewGeometry h1 g)).
    change (indexRef g ≫= _) with (index (viewGeometry h1 g)).
    rewrite Hview1. reflexivity.
  - unfold h1. cbn [heapEvents]. rewrite <- app_assoc. reflexivity.
Qed.


End Steps.


End SharedFacts.
